(** * OpenFst 1.6.1: sparse power weights and the fstreweight command

    A shallow embedding of [src/include/fst/sparse-power-weight.h] and of
    [src/bin/fstreweight.cc], with the properties the specification states
    about them.

    Layout:
    - [Weight]: the interface a base weight class [W] offers (weight.h);
    - [SparseTupleWeight]: the tuple representation and its merge
      (sparse-tuple-weight.h);
    - [SparsePowerWeight]: the operations of sparse-power-weight.h;
    - [Tropical]: a concrete base weight used for evaluation;
    - [Reweight]: the reweighting transform;
    - [FstReweight]: the [main] function of fstreweight.cc. *)

From Stdlib Require Import ZArith List Bool Lia Sorted String Ascii.
From Stdlib Require Import QArith Lqa DecimalString DecimalZ.
Import ListNotations.

Local Open Scope Z_scope.

(* ================================================================= *)
(** ** The weight interface *)

Module Weight.

(** [DivideType] of weight.h. *)
Inductive DivideType : Type :=
  | DIVIDE_LEFT
  | DIVIDE_RIGHT
  | DIVIDE_ANY.

(** What sparse-power-weight.h asks of its template argument [W]:
    the static members [Zero], [One], [NoWeight], [Type], [Properties],
    the free functions [Plus], [Times], [Divide], [ApproxEqual] and
    [operator==].  [float] is the type of the tolerance [delta];
    [kDelta] is the library-wide default tolerance of weight.h.
    [operator==] is taken to decide equality of weights. *)
Class Weight (float W : Type) : Type := {
  Zero : W;
  One : W;
  NoWeight : W;
  Plus : W -> W -> W;
  Times : W -> W -> W;
  Divide : W -> W -> DivideType -> W;
  ApproxEqual : W -> W -> float -> bool;
  W_eq_dec : forall a b : W, {a = b} + {a <> b};
  Properties : Z;
  Type_ : string;
  kDelta : float
}.

End Weight.

(* ================================================================= *)
(** ** Sparse tuple weights *)

Module SparseTupleWeight.

Import Weight.

(** The key type [K] (an [int] by default): a signed integer. *)
Definition K : Type := Z.

(** [kNoKey], the reserved key. *)
Definition kNoKey : K := -1.

Section Tuple.

Context {float W : Type} `{WW : Weight float W}.

(** [Pair = std::pair<K, W>]. *)
Definition Pair : Type := (K * W)%type.

(** Modelled from the spec: sparse-tuple-weight.h, which
    sparse-power-weight.h includes, is not among the sources.  A tuple is
    the ordered sequence of its materialised (key, value) pairs together
    with the value stored under the reserved key, which is the value the
    tuple holds "at every dimension implicitly" (spec 4.1): [Zero()] has
    [W::Zero()] there and no pair (the empty tuple), [One()] has
    [W::One()] there, and the single-value constructor called at
    sparse-power-weight.h lines 184, 192 and 201 puts its argument there.
    [default_] is that value and [pairs] the materialised sequence. *)
Record SparseTupleWeight : Type := mkTuple {
  default_ : W;
  pairs : list Pair
}.

(** Modelled from the spec: the initial state of a tuple, an empty
    sequence over the given implicit value (W::Zero() when none is
    given). *)
Definition Init (default_value : W) : SparseTupleWeight :=
  {| default_ := default_value; pairs := [] |}.

(** Modelled from the spec: [SetDefaultValue]. *)
Definition SetDefaultValue (value : W) (t : SparseTupleWeight)
  : SparseTupleWeight :=
  {| default_ := value; pairs := pairs t |}.

(** Modelled from the spec: [Push] appends a pair to the sequence unless
    its value is the one the tuple holds implicitly, which keeps the
    representation sparse. *)
Definition Push (p : Pair) (t : SparseTupleWeight) : SparseTupleWeight :=
  if W_eq_dec (snd p) (default_ t) then t
  else {| default_ := default_ t; pairs := pairs t ++ [p] |}.

(** Modelled from the spec: the constructor from one (key, weight) pair.
    The reserved key is no dimension (spec 3, 7): a pair given under it
    is not kept, and the tuple stays empty. *)
Definition of_pair (key : K) (weight : W) : SparseTupleWeight :=
  if key =? kNoKey then Init Zero
  else Push (key, weight) (Init Zero).

(** Modelled from the spec: the single-value constructor. *)
Definition of_weight (weight : W) : SparseTupleWeight := Init weight.

(** Modelled from the spec: the additive and multiplicative identities. *)
Definition Zero : SparseTupleWeight := of_weight Weight.Zero.
Definition One : SparseTupleWeight := of_weight Weight.One.
Definition NoWeight : SparseTupleWeight := of_weight Weight.NoWeight.

(** Modelled from the spec: the traversal of [SparseTupleWeightMap].
    Both sequences are walked in key order; the result lists, in the
    order of the calls, every (key, mapper value) pair handed to [Push].
    A side on which the key is absent contributes that side's implicit
    value. *)
Fixpoint merge_visits (M : K -> W -> W -> W) (v1_def v2_def : W)
    (l1 : list Pair) : list Pair -> list Pair :=
  fix against (l2 : list Pair) : list Pair :=
    match l1, l2 with
    | [], [] => []
    | (k1, v1) :: r1, [] =>
        (k1, M k1 v1 v2_def) :: merge_visits M v1_def v2_def r1 []
    | [], (k2, v2) :: r2 =>
        (k2, M k2 v1_def v2) :: against r2
    | (k1, v1) :: r1, (k2, v2) :: r2 =>
        if k1 =? k2 then
          (k1, M k1 v1 v2) :: merge_visits M v1_def v2_def r1 r2
        else if k1 <? k2 then
          (k1, M k1 v1 v2_def) :: merge_visits M v1_def v2_def r1 l2
        else
          (k2, M k2 v1_def v2) :: against r2
    end.

(** Modelled from the spec: [SparseTupleWeightMap(result, w1, w2, mapper)].
    The implicit value of the result is the mapper applied to the two
    implicit values; then every visited pair is pushed. *)
Definition SparseTupleWeightMap (result : SparseTupleWeight)
    (w1 w2 : SparseTupleWeight) (M : K -> W -> W -> W) : SparseTupleWeight :=
  let v1_def := default_ w1 in
  let v2_def := default_ w2 in
  fold_left (fun r p => Push p r)
    (merge_visits M v1_def v2_def (pairs w1) (pairs w2))
    (SetDefaultValue (M 0 v1_def v2_def) result).

Definition W_eqb (a b : W) : bool := if W_eq_dec a b then true else false.

(** Modelled from the spec: the comparison loop of [operator==] on two
    sequences, absent keys reading as the side's implicit value. *)
Fixpoint pairs_eqb (v1_def v2_def : W) (l1 : list Pair)
  : list Pair -> bool :=
  fix against (l2 : list Pair) : bool :=
    match l1, l2 with
    | [], [] => true
    | (k1, v1) :: r1, [] =>
        W_eqb v1 v2_def && pairs_eqb v1_def v2_def r1 []
    | [], (k2, v2) :: r2 =>
        W_eqb v1_def v2 && against r2
    | (k1, v1) :: r1, (k2, v2) :: r2 =>
        if k1 =? k2 then W_eqb v1 v2 && pairs_eqb v1_def v2_def r1 r2
        else if k1 <? k2 then W_eqb v1 v2_def && pairs_eqb v1_def v2_def r1 l2
        else W_eqb v1_def v2 && against r2
    end.

(** Modelled from the spec: [operator==] on tuples. *)
Definition eqb (w1 w2 : SparseTupleWeight) : bool :=
  W_eqb (default_ w1) (default_ w2)
  && pairs_eqb (default_ w1) (default_ w2) (pairs w1) (pairs w2).

(** The keys of the materialised pairs, in sequence order. *)
Definition keys (t : SparseTupleWeight) : list K := map fst (pairs t).

(** The value a tuple holds at a key: the materialised value if there is
    one, the implicit value otherwise. *)
Fixpoint lookup (d : W) (l : list Pair) (k : K) : W :=
  match l with
  | [] => d
  | (k', v) :: r => if k' =? k then v else lookup d r k
  end.

Definition get (t : SparseTupleWeight) (k : K) : W :=
  lookup (default_ t) (pairs t) k.

(** The spec's reading of an absent key: it reads as [W::Zero()]. *)
Definition get_or_zero (t : SparseTupleWeight) (k : K) : W :=
  lookup Weight.Zero (pairs t) k.

(** A tuple is ordered when its keys are strictly increasing. *)
Definition ordered (t : SparseTupleWeight) : Prop :=
  StronglySorted Z.lt (keys t).

End Tuple.

Arguments SparseTupleWeight : clear implicits.

End SparseTupleWeight.

(* ================================================================= *)
(** ** Sparse power weights (sparse-power-weight.h) *)

Module SparsePowerWeight.

Import Weight.
Import SparseTupleWeight.

(** Modelled from the spec: [Int64ToStr] (util.h) is not among the
    sources; the name of the type is extended by the width of the key,
    which this function prints: the decimal representation of a 64-bit
    signed integer. *)
Definition Int64ToStr (n : Z) : string :=
  NilZero.string_of_int (Z.to_int n).

(** The value of a [size_t] expression, reduced modulo 2^64. *)
Definition size_t (n : Z) : Z := n mod 2 ^ 64.

(** The conversion of a [size_t] value to [int64]. *)
Definition to_int64 (n : Z) : Z :=
  let m := n mod 2 ^ 64 in
  if m <? 2 ^ 63 then m else m - 2 ^ 64.

Section Power.

Context {float W : Type} `{WW : Weight float W}.

(** [SparsePowerWeight<W, K>] derives from [SparseTupleWeight<W, K>] and
    adds no member. *)
Definition SparsePowerWeight : Type := SparseTupleWeight W.

(** The mappers handed to [SparseTupleWeightMap]. *)
Definition SparseTupleWeightPlusMapper : K -> W -> W -> W :=
  fun k v1 v2 => Weight.Plus v1 v2.

Definition SparseTupleWeightTimesMapper : K -> W -> W -> W :=
  fun k v1 v2 => Weight.Times v1 v2.

Definition SparseTupleWeightDivideMapper (type : DivideType)
  : K -> W -> W -> W :=
  fun k v1 v2 => Weight.Divide v1 v2 type.

Definition SparseTupleWeightApproxMapper (delta : float)
  : K -> W -> W -> W :=
  fun k v1 v2 =>
    if Weight.ApproxEqual v1 v2 delta then Weight.One else Weight.Zero.

(** The constructors: the default one, the conversion from a tuple and
    the one from a (key, weight) pair. *)
Definition empty : SparsePowerWeight := Init Weight.Zero.

Definition of_tuple (weight : SparseTupleWeight W) : SparsePowerWeight :=
  weight.

Definition of_key_weight (key : K) (weight : W) : SparsePowerWeight :=
  of_pair key weight.

Definition Zero : SparsePowerWeight := of_tuple SparseTupleWeight.Zero.
Definition One : SparsePowerWeight := of_tuple SparseTupleWeight.One.
Definition NoWeight : SparsePowerWeight :=
  of_tuple SparseTupleWeight.NoWeight.

(** The static [type] string of [Type()] is empty until the first call,
    which fills it; [Type_call] takes the string before the call and
    returns the value handed back together with the string after it. *)
Definition Type_fresh (sizeof_K : Z) : string :=
  let type := (Weight.Type_ ++ "_^n")%string in
  if negb (sizeof_K =? 4) then
    let size := Int64ToStr (to_int64 (size_t (8 * sizeof_K))) in
    (type ++ ("_" ++ size))%string
  else type.

Definition Type_call (sizeof_K : Z) (type : string) : string * string :=
  let type' :=
    if (type =? "")%string then Type_fresh sizeof_K else type in
  (type', type').

(** The type name as a program sees it: the value of the first call. *)
Definition Type_ (sizeof_K : Z) : string :=
  fst (Type_call sizeof_K ""%string).

(** The flags of weight.h that [Properties()] keeps. *)
Section Flags.

Variables kLeftSemiring kRightSemiring kCommutative kIdempotent : Z.

Definition Properties : Z :=
  Z.land Weight.Properties
    (Z.lor (Z.lor (Z.lor kLeftSemiring kRightSemiring) kCommutative)
       kIdempotent).

End Flags.

(** Semimodule plus operation. *)
Definition Plus (w1 w2 : SparsePowerWeight) : SparsePowerWeight :=
  let result := empty in
  let operator_mapper := SparseTupleWeightPlusMapper in
  SparseTupleWeightMap result w1 w2 operator_mapper.

(** Semimodule times operation. *)
Definition Times (w1 w2 : SparsePowerWeight) : SparsePowerWeight :=
  let result := empty in
  let operator_mapper := SparseTupleWeightTimesMapper in
  SparseTupleWeightMap result w1 w2 operator_mapper.

(** Semimodule divide operation. *)
Definition Divide (w1 w2 : SparsePowerWeight) (type : DivideType)
  : SparsePowerWeight :=
  let result := empty in
  let operator_mapper := SparseTupleWeightDivideMapper type in
  SparseTupleWeightMap result w1 w2 operator_mapper.

(** Semimodule dot product operation.  The function has two automatic
    objects, [product] and [result]; a [DotProduct_frame] holds them. *)
Record DotProduct_frame : Type := mkFrame {
  product : SparsePowerWeight;
  result : W
}.

(** The frame when [return result] is reached: the loop has run over
    the materialised pairs of the product. *)
Definition DotProduct_body (w1 w2 : SparsePowerWeight) : DotProduct_frame :=
  let product := Times w1 w2 in
  {| product := product;
     result := fold_left (fun result p => Weight.Plus result (snd p))
                 (pairs product) Weight.Zero |}.

(** [DotProduct] returns [const W &]: the caller gets a reference to
    the object [result] of the frame of the call.  The automatic storage
    is the stack of the frames of the calls in progress; the call puts
    its frame on it and the return takes it off.  [DotProduct] takes the
    stack before the call and gives the reference returned, which is the
    place on the stack of the frame whose [result] it designates, and
    the stack after the return. *)
Definition DotProduct (stack : list DotProduct_frame)
    (w1 w2 : SparsePowerWeight) : nat * list DotProduct_frame :=
  let called := stack ++ [DotProduct_body w1 w2] in
  let reference := List.length stack in
  (reference, removelast called).

(** Reading through a reference to a [result]: the value of the object,
    when its frame is on the stack. *)
Definition read (stack : list DotProduct_frame) (reference : nat)
  : option W :=
  option_map result (nth_error stack reference).

(** [ApproxEqual]: the mapper is built from [kDelta]; the argument
    [delta] does not reach it. *)
Definition ApproxEqual (w1 w2 : SparsePowerWeight) (delta : float) : bool :=
  let result := Init Weight.Zero in
  let operator_mapper := SparseTupleWeightApproxMapper kDelta in
  SparseTupleWeight.eqb (SparseTupleWeightMap result w1 w2 operator_mapper)
    One.

(** The scalar products [Times(k, w2)] and [Times(w1, k)]. *)
Definition Times_scalar_left (k : W) (w2 : SparsePowerWeight)
  : SparsePowerWeight :=
  let t2 := of_weight k in
  let w1 := of_tuple t2 in
  Times w1 w2.

Definition Times_scalar_right (w1 : SparsePowerWeight) (k : W)
  : SparsePowerWeight :=
  let t2 := of_weight k in
  let w2 := of_tuple t2 in
  Times w1 w2.

(** The scalar quotient [Divide(w1, k, divide_type)]. *)
Definition Divide_scalar (w1 : SparsePowerWeight) (k : W)
    (divide_type : DivideType) : SparsePowerWeight :=
  let t2 := of_weight k in
  let w2 := of_tuple t2 in
  Divide w1 w2 divide_type.

End Power.

Arguments SparsePowerWeight : clear implicits.
Arguments DotProduct_frame : clear implicits.

End SparsePowerWeight.

(* ================================================================= *)
(** ** A concrete base weight *)

Module Tropical.

Import Weight.

(** The tropical semiring (min, +) on the integers, in the shape of
    OpenFst's TropicalWeight: [Inf] is the value of [Zero()], [Fin 0]
    that of [One()], [Bad] that of [NoWeight()]. *)
Inductive T : Type :=
  | Fin (z : Z)
  | Inf
  | Bad.

Definition eq_dec (a b : T) : {a = b} + {a <> b}.
Proof. decide equality. apply Z.eq_dec. Defined.

Definition Plus (w1 w2 : T) : T :=
  match w1, w2 with
  | Bad, _ | _, Bad => Bad
  | Inf, w | w, Inf => w
  | Fin a, Fin b => Fin (Z.min a b)
  end.

Definition Times (w1 w2 : T) : T :=
  match w1, w2 with
  | Bad, _ | _, Bad => Bad
  | Inf, _ | _, Inf => Inf
  | Fin a, Fin b => Fin (a + b)
  end.

Definition Divide (w1 w2 : T) (typ : DivideType) : T :=
  match w1, w2 with
  | Bad, _ | _, Bad => Bad
  | _, Inf => Bad
  | Inf, Fin _ => Inf
  | Fin a, Fin b => Fin (a - b)
  end.

(** Two values are approximately equal when each is at most the other
    plus [delta]; the tolerance is a rational here. *)
Definition ApproxEqual (w1 w2 : T) (delta : Q) : bool :=
  match w1, w2 with
  | Fin a, Fin b =>
      Qle_bool (inject_Z a) (inject_Z b + delta)
      && Qle_bool (inject_Z b) (inject_Z a + delta)
  | Inf, Inf => true
  | _, _ => false
  end.

(** The instance, for a given value of [kDelta]. *)
Definition weight (kDelta : Q) : Weight Q T := {|
  Weight.Zero := Inf;
  Weight.One := Fin 0;
  Weight.NoWeight := Bad;
  Weight.Plus := Plus;
  Weight.Times := Times;
  Weight.Divide := Divide;
  Weight.ApproxEqual := ApproxEqual;
  Weight.W_eq_dec := eq_dec;
  Weight.Properties := 31;
  Weight.Type_ := "tropical";
  Weight.kDelta := kDelta
|}.

End Tropical.

(* ================================================================= *)
(** ** The reweighting transform *)

Module Reweight.

Import Weight.

(** [ReweightType] of reweight.h, the two directions. *)
Inductive ReweightType : Type :=
  | REWEIGHT_TO_INITIAL
  | REWEIGHT_TO_FINAL.

(** Modelled from the spec: [GetReweightType] (script/getters.h) is not
    among the sources; the boolean flag selects the direction toward the
    final states over the one toward the initial states (spec 6). *)
Definition GetReweightType (to_final : bool) : ReweightType :=
  if to_final then REWEIGHT_TO_FINAL else REWEIGHT_TO_INITIAL.

Section Transform.

Context {float W : Type} `{WW : Weight float W}.

(** The automaton the transform works on: every state has a final
    weight and a sequence of arcs; every arc has two labels, a weight
    and a destination state.  State ids are positions in [states]. *)
Record Arc : Type := mkArc {
  ilabel : Z;
  olabel : Z;
  weight : W;
  nextstate : nat
}.

Record State : Type := mkState {
  final : W;
  arcs : list Arc
}.

Record Fst : Type := mkFst {
  start : nat;
  states : list State
}.

(** The potential of a state; a state the vector does not list has
    potential [Zero]. *)
Definition potential_at (potential : list W) (s : nat) : W :=
  nth s potential Weight.Zero.

Definition is_zero (w : W) : bool :=
  if W_eq_dec w Weight.Zero then true else false.

(** Modelled from the spec: the new weight of an arc (spec 4.2).  The
    code of the transform (reweight.h) is not among the sources.  An arc
    into or out of a state of potential [Zero] gets the weight [Zero].
    Toward the final states the weight is
    [Times(Divide(One, p[src]), Times(weight, p[dst]))] for a two-sided
    semiring and [Times(Divide(weight, p[src], DIVIDE_LEFT), p[dst])]
    otherwise; toward the initial states [src] and [dst], and left and
    right division, change places. *)
Definition reweight_arc_weight (two_sided : bool) (type : ReweightType)
    (p_src p_dst w : W) : W :=
  if is_zero p_src || is_zero p_dst then Weight.Zero
  else
    match type with
    | REWEIGHT_TO_FINAL =>
        if two_sided then
          Weight.Times (Weight.Divide Weight.One p_src DIVIDE_ANY)
            (Weight.Times w p_dst)
        else Weight.Times (Weight.Divide w p_src DIVIDE_LEFT) p_dst
    | REWEIGHT_TO_INITIAL =>
        if two_sided then
          Weight.Times (Weight.Divide Weight.One p_dst DIVIDE_ANY)
            (Weight.Times w p_src)
        else Weight.Times (Weight.Divide w p_dst DIVIDE_RIGHT) p_src
    end.

(** Modelled from the spec: the new final weight of a state,
    [Times(final_weight, p[state])]. *)
Definition reweight_final (p_state w : W) : W := Weight.Times w p_state.

Definition reweight_arc (two_sided : bool) (type : ReweightType)
    (potential : list W) (s : nat) (a : Arc) : Arc :=
  {| ilabel := ilabel a;
     olabel := olabel a;
     weight :=
       reweight_arc_weight two_sided type (potential_at potential s)
         (potential_at potential (nextstate a)) (weight a);
     nextstate := nextstate a |}.

Definition reweight_state (two_sided : bool) (type : ReweightType)
    (potential : list W) (s : nat) (st : State) : State :=
  {| final := reweight_final (potential_at potential s) (final st);
     arcs := map (reweight_arc two_sided type potential s) (arcs st) |}.

(** The states of a sequence, reweighted, the first one having id [s]. *)
Fixpoint reweight_states (two_sided : bool) (type : ReweightType)
    (potential : list W) (s : nat) (sts : list State) : list State :=
  match sts with
  | [] => []
  | st :: rest =>
      reweight_state two_sided type potential s st
      :: reweight_states two_sided type potential (S s) rest
  end.

(** Modelled from the spec: [Reweight(automaton, potentials, direction)]
    rewrites every arc weight and every final weight and leaves states,
    arcs and labels as they are. *)
Definition Reweight (two_sided : bool) (fst : Fst) (potential : list W)
    (type : ReweightType) : Fst :=
  {| start := start fst;
     states := reweight_states two_sided type potential 0 (states fst) |}.

(** Every arc of the automaton leads to one of its states. *)
Definition closed (fst : Fst) : Prop :=
  Forall (fun st => Forall (fun a => (nextstate a < List.length (states fst))%nat)
                      (arcs st))
    (states fst).

(** The potential vector gives [One] to every state of the automaton. *)
Definition all_One (fst : Fst) (potential : list W) : Prop :=
  forall s, (s < List.length (states fst))%nat ->
    potential_at potential s = Weight.One.

End Transform.

Arguments Arc : clear implicits.
Arguments State : clear implicits.
Arguments Fst : clear implicits.

End Reweight.

(* ================================================================= *)
(** ** The fstreweight command (fstreweight.cc) *)

Module FstReweight.

Import Reweight.

Section Main.

(** The classes of the scripting layer and the collaborators [main]
    calls; none of them is among the sources, so [main] is stated over
    any behaviour they may have.  A null pointer is [None]; a [false]
    from [ReadPotentials] is [None]. *)
Variable MutableFstClass : Type.
Variable WeightClass : Type.
Variable Read : string -> bool -> option MutableFstClass.
Variable WeightType : MutableFstClass -> string.
Variable ReadPotentials : string -> string -> option (list WeightClass).
Variable s_Reweight :
  MutableFstClass -> list WeightClass -> ReweightType -> MutableFstClass.
Variable Write : MutableFstClass -> string -> bool.

(** What a run of the command does, in order. *)
Inductive Event : Type :=
  | EvShowUsage
  | EvRead (in_name : string)
  | EvReadPotentials (weight_type potentials_name : string)
  | EvReweight (fst : MutableFstClass) (potential : list WeightClass)
               (type : ReweightType)
  | EvWrite (fst : MutableFstClass) (out_name : string) (written : bool).

(** [argv[i]]. *)
Definition arg (argv : list string) (i : nat) : string :=
  nth i argv ""%string.

(** [main], after [SET_FLAGS] has taken the flags out of [argv]:
    the exit status and the events of the run. *)
Definition main (FLAGS_to_final : bool) (argv : list string)
  : Z * list Event :=
  let argc := Z.of_nat (List.length argv) in
  if (argc <? 3) || (argc >? 4) then (1, [EvShowUsage])
  else
    let in_name := arg argv 1 in
    let potentials_name := arg argv 2 in
    let out_name := if argc >? 3 then arg argv 3 else ""%string in
    match Read in_name true with
    | None => (1, [EvRead in_name])
    | Some fst =>
        match ReadPotentials (WeightType fst) potentials_name with
        | None =>
            (1, [EvRead in_name;
                 EvReadPotentials (WeightType fst) potentials_name])
        | Some potential =>
            let type := GetReweightType FLAGS_to_final in
            let fst' := s_Reweight fst potential type in
            let written := Write fst' out_name in
            (0, [EvRead in_name;
                 EvReadPotentials (WeightType fst) potentials_name;
                 EvReweight fst potential type;
                 EvWrite fst' out_name written])
        end
    end.

Definition is_reweight (e : Event) : bool :=
  match e with EvReweight _ _ _ => true | _ => false end.

Definition is_write (e : Event) : bool :=
  match e with EvWrite _ _ _ => true | _ => false end.

(** Loading fails: the automaton cannot be read, or it can and the
    potentials cannot. *)
Definition load_fails (argv : list string) : Prop :=
  Read (arg argv 1) true = None \/
  exists fst, Read (arg argv 1) true = Some fst /\
              ReadPotentials (WeightType fst) (arg argv 2) = None.

(** Both loads succeed. *)
Definition loads_succeed (argv : list string) : Prop :=
  exists fst potential,
    Read (arg argv 1) true = Some fst /\
    ReadPotentials (WeightType fst) (arg argv 2) = Some potential.

End Main.

Arguments EvShowUsage {MutableFstClass WeightClass}.
Arguments EvRead {MutableFstClass WeightClass} in_name.
Arguments EvReadPotentials {MutableFstClass WeightClass}
  weight_type potentials_name.
Arguments EvReweight {MutableFstClass WeightClass} fst potential type.
Arguments EvWrite {MutableFstClass WeightClass} fst out_name written.
Arguments is_reweight {MutableFstClass WeightClass} e.
Arguments is_write {MutableFstClass WeightClass} e.

End FstReweight.

(* ================================================================= *)
(** ** The operations as the specification words them *)

Module Stated.

Import Weight.
Import SparseTupleWeight.
Import SparsePowerWeight.

(** The keys present in either of two increasing key sequences, each
    once, in increasing order. *)
Fixpoint union_keys (l1 : list K) : list K -> list K :=
  fix against (l2 : list K) : list K :=
    match l1, l2 with
    | [], _ => l2
    | _, [] => l1
    | k1 :: r1, k2 :: r2 =>
        if k1 =? k2 then k1 :: union_keys r1 r2
        else if k1 <? k2 then k1 :: union_keys r1 l2
        else k2 :: against r2
    end.

Section Stated.

Context {float W : Type} `{WW : Weight float W}.

(** The pairs of a sequence whose value is not [d]. *)
Definition sparse (d : W) (l : list Pair) : list Pair :=
  filter (fun p => negb (W_eqb (snd p) d)) l.

(** For every key present in either tuple, the pair of the key and the
    mapper's value on what the two tuples hold there. *)
Definition merged (M : K -> W -> W -> W) (t1 t2 : SparseTupleWeight W)
  : list Pair :=
  map (fun k => (k, M k (get t1 k) (get t2 k)))
    (union_keys (keys t1) (keys t2)).



(** [DotProduct(p1, p2)] as the specification states it: the
    accumulation by [Plus], from [Zero], of [Times(p1[k], p2[k])] over
    the keys of either operand, an absent key contributing [Zero]. *)
Definition DotProduct_stated (p1 p2 : SparsePowerWeight W) : W :=
  fold_left
    (fun result k =>
       Weight.Plus result
         (Weight.Times (get_or_zero p1 k) (get_or_zero p2 k)))
    (union_keys (keys p1) (keys p2)) Weight.Zero.

(** The accumulation the loop of [DotProduct] performs: a product equal
    to the product of the two implicit values is passed over. *)
Definition DotProduct_sum (p1 p2 : SparsePowerWeight W) : W :=
  fold_left
    (fun result k =>
       let v := Weight.Times (get p1 k) (get p2 k) in
       if W_eqb v (Weight.Times (default_ p1) (default_ p2)) then result
       else Weight.Plus result v)
    (union_keys (keys p1) (keys p2)) Weight.Zero.





(** The bits of the four flags [Properties()] names. *)
Definition four_flags (kLeftSemiring kRightSemiring kCommutative
    kIdempotent : Z) : Z :=
  Z.lor (Z.lor (Z.lor kLeftSemiring kRightSemiring) kCommutative)
    kIdempotent.

(** [ApproxEqual(w1, w2, delta)] as the specification states it: the
    merge under the mapper built from the caller's [delta], compared
    with [One()]. *)
Definition ApproxEqual_stated (w1 w2 : SparsePowerWeight W)
    (delta : float) : bool :=
  SparseTupleWeight.eqb
    (SparseTupleWeightMap (Init Weight.Zero) w1 w2
       (SparseTupleWeightApproxMapper delta))
    SparsePowerWeight.One.

End Stated.

End Stated.

(* ================================================================= *)
(** ** Concrete inputs *)

Module Inputs.

Import SparseTupleWeight.
Import Tropical.

(** Tuples over the tropical weight. *)
Definition PW : Type := SparsePowerWeight.SparsePowerWeight T.


(** Two tuples of keys {1, 2} and {2, 3}. *)
Definition t12 : PW := mkTuple Inf [(1, Fin 5); (2, Fin 3)].
Definition t23 : PW := mkTuple Inf [(2, Fin 5); (3, Fin 7)].

(** The tuple that holds [One] at every dimension but dimension 1,
    where it holds [Zero]. *)
Definition one_but_1 : PW := mkTuple (Fin 0) [(1, Inf)].

(** Two tuples that differ by 1 at their only key. *)
Definition zero_at_1 : PW := mkTuple Inf [(1, Fin 0)].
Definition one_at_1 : PW := mkTuple Inf [(1, Fin 1)].

(** The tropical weight with OpenFst's tolerance, 1/1024. *)
Definition TW : Weight.Weight Q T := weight (1 # 1024).

(** An automaton of two states and two arcs, and the potential vector
    that gives [One] to both states. *)
Definition two_states : Reweight.Fst T :=
  Reweight.mkFst 0%nat
    [ Reweight.mkState Inf [Reweight.mkArc 1 1 (Fin 3) 1%nat];
      Reweight.mkState (Fin 2) [Reweight.mkArc 2 2 (Fin 1) 0%nat] ].

Definition potential_One : list T := [Fin 0; Fin 0].

(** Collaborators of [main]: automata and weights are numbers; only
    "in.fst" can be read, only "potential.txt" can be parsed; the
    transform returns another automaton; writing fails, or succeeds. *)
Definition Read_in (in_name : string) (convert : bool) : option nat :=
  if (in_name =? "in.fst")%string then Some 0%nat else None.

Definition WeightType_tropical (fst : nat) : string := "tropical"%string.

Definition ReadPotentials_txt (weight_type potentials_name : string)
  : option (list nat) :=
  if (potentials_name =? "potential.txt")%string then Some [7%nat]
  else None.

Definition Reweight_next (fst : nat) (potential : list nat)
    (type : Reweight.ReweightType) : nat := S fst.

Definition Write_fails (fst : nat) (out_name : string) : bool := false.

Definition Write_succeeds (fst : nat) (out_name : string) : bool := true.

(** Command lines: a good one, one whose automaton is missing, one
    whose potentials cannot be parsed. *)
Definition argv_good : list string :=
  ["fstreweight"; "in.fst"; "potential.txt"; "out.fst"]%string.

Definition argv_no_fst : list string :=
  ["fstreweight"; "missing.fst"; "potential.txt"; "out.fst"]%string.

Definition argv_no_potentials : list string :=
  ["fstreweight"; "in.fst"; "garbled.txt"; "out.fst"]%string.

End Inputs.

(* ================================================================= *)
(** ** The weight generator and the sparse form *)

Module Generate.

Import Weight.
Import SparseTupleWeight.
Import SparsePowerWeight.

(** The value of an integer converted to a signed type of [bits] bits. *)
Definition to_signed (bits n : Z) : Z :=
  let m := n mod 2 ^ bits in
  if m <? 2 ^ (bits - 1) then m else m - 2 ^ bits.

Section Generate.

Context {float W : Type} `{WW : Weight float W}.

(** [WeightGenerate<SparsePowerWeight<W, K>>::operator()].  The member
    [generate_] is the generator of the base weight; [generate_ n] is
    the weight its [n]-th call returns; [sizeof_K] is the size of the
    key type in bytes.

    The loop variable [i] is an [int].  The test [i <= sparse_power_rank_]
    compares it with a [size_t], to which it is converted.  The body
    pushes the pair of [i], converted to [K], and the weight generated at
    that turn, with the check against the implicit value.  The increment
    of an [int] that has reached 2^31 - 1 has no defined behaviour: the
    loop then gives [None].  [turns] bounds the number of turns; the
    loop runs at most [sparse_power_rank_] times. *)
Fixpoint generate_loop (sizeof_K : Z) (generate_ : nat -> W)
    (sparse_power_rank_ : Z) (turns : nat) (i : Z)
    (weight : SparsePowerWeight W) : option (SparsePowerWeight W) :=
  if i mod 2 ^ 64 <=? sparse_power_rank_ then
    match turns with
    | O => None
    | S turns' =>
        let weight' :=
          Push (to_signed (8 * sizeof_K) i, generate_ (Z.to_nat i)) weight in
        if i + 1 <? 2 ^ 31 then
          generate_loop sizeof_K generate_ sparse_power_rank_ turns' (i + 1)
            weight'
        else None
    end
  else Some weight.

Definition WeightGenerate (sizeof_K : Z) (generate_ : nat -> W)
    (sparse_power_rank_ : nat) : option (SparsePowerWeight W) :=
  let weight := empty in
  generate_loop sizeof_K generate_ (Z.of_nat sparse_power_rank_)
    sparse_power_rank_ 1 weight.

(** A tuple is in sparse form when none of its pairs has the value the
    tuple holds implicitly. *)
Definition sparse_form (t : SparseTupleWeight W) : Prop :=
  Forall (fun p => snd p <> default_ t) (pairs t).

(** The weights a tuple is made of: the one it holds implicitly and
    those of its pairs. *)
Definition values (t : SparseTupleWeight W) : list W :=
  default_ t :: map snd (pairs t).

End Generate.

End Generate.

(* ================================================================= *)
(** ** More concrete inputs *)

Module MoreInputs.

Import Tropical.

(** Command lines with too few arguments, with too many, and with no
    output name. *)
Definition argv_short : list string := ["fstreweight"; "in.fst"]%string.

Definition argv_long : list string :=
  ["fstreweight"; "in.fst"; "potential.txt"; "out.fst"; "more"]%string.

Definition argv_three : list string :=
  ["fstreweight"; "in.fst"; "potential.txt"]%string.


(** A generator of tropical weights whose second value is [Zero]. *)
Definition generate_135 (i : nat) : T :=
  match i with
  | 1%nat => Fin 1
  | 2%nat => Inf
  | _ => Fin 5
  end.

(** A second weight class, of another type name. *)
Definition log_like : Weight.Weight Q T := {|
  Weight.Zero := Inf;
  Weight.One := Fin 0;
  Weight.NoWeight := Bad;
  Weight.Plus := Plus;
  Weight.Times := Times;
  Weight.Divide := Divide;
  Weight.ApproxEqual := ApproxEqual;
  Weight.W_eq_dec := eq_dec;
  Weight.Properties := 31;
  Weight.Type_ := "log";
  Weight.kDelta := 1 # 1024
|}.

End MoreInputs.

(* ================================================================= *)
(** ** The merge of two ordered tuples *)

Module MergeFacts.

Import Weight.
Import SparseTupleWeight.
Import Stated.

Lemma union_keys_nil_l (l : list K) : union_keys [] l = l.
Proof. destruct l; reflexivity. Qed.

Lemma union_keys_nil_r (l : list K) : union_keys l [] = l.
Proof. destruct l; reflexivity. Qed.

Lemma union_keys_In (k : K) (l1 l2 : list K) :
  In k (union_keys l1 l2) <-> In k l1 \/ In k l2.
Proof.
  revert l2. induction l1 as [|k1 r1 IH1]; intros l2.
  - rewrite union_keys_nil_l. simpl. tauto.
  - induction l2 as [|k2 r2 IH2].
    + rewrite union_keys_nil_r. simpl. tauto.
    + change (union_keys (k1 :: r1) (k2 :: r2))
        with (if k1 =? k2 then k1 :: union_keys r1 r2
              else if k1 <? k2 then k1 :: union_keys r1 (k2 :: r2)
              else k2 :: union_keys (k1 :: r1) r2).
      destruct (Z.eqb_spec k1 k2) as [->|Hne].
      * simpl. rewrite IH1. tauto.
      * destruct (k1 <? k2); simpl.
        -- rewrite IH1. simpl. tauto.
        -- rewrite IH2. simpl. tauto.
Qed.

Lemma union_keys_sorted (l1 l2 : list K) :
  StronglySorted Z.lt l1 -> StronglySorted Z.lt l2 ->
  StronglySorted Z.lt (union_keys l1 l2).
Proof.
  revert l2. induction l1 as [|k1 r1 IH1]; intros l2 S1 S2.
  - now rewrite union_keys_nil_l.
  - induction l2 as [|k2 r2 IH2].
    + now rewrite union_keys_nil_r.
    + change (union_keys (k1 :: r1) (k2 :: r2))
        with (if k1 =? k2 then k1 :: union_keys r1 r2
              else if k1 <? k2 then k1 :: union_keys r1 (k2 :: r2)
              else k2 :: union_keys (k1 :: r1) r2).
      apply StronglySorted_inv in S1 as [S1 F1].
      pose proof S2 as S2'.
      apply StronglySorted_inv in S2 as [S2 F2].
      rewrite Forall_forall in F1, F2.
      destruct (Z.eqb_spec k1 k2) as [->|Hne].
      * constructor; [now apply IH1|].
        apply Forall_forall. intros k Hk.
        apply union_keys_In in Hk as [Hk|Hk]; auto.
      * destruct (Z.ltb_spec k1 k2) as [Hlt|Hge].
        -- constructor; [now apply IH1|].
           apply Forall_forall. intros k Hk.
           apply union_keys_In in Hk as [Hk|[<-|Hk]]; auto.
           specialize (F2 _ Hk). lia.
        -- constructor.
           ++ apply IH2; auto.
           ++ apply Forall_forall. intros k Hk.
              apply union_keys_In in Hk as [[<-|Hk]|Hk]; auto.
              ** lia.
              ** specialize (F1 _ Hk). lia.
Qed.

Section Merge.

Context {float W : Type} `{WW : Weight float W}.

Variable M : K -> W -> W -> W.
Variables d1 d2 : W.

Lemma lookup_absent (d : W) (l : list Pair) (k : K) :
  ~ In k (map fst l) -> lookup d l k = d.
Proof.
  induction l as [|[k' v] r IH]; simpl; intros Hn; [reflexivity|].
  destruct (Z.eqb_spec k' k) as [->|Hne]; [tauto|].
  apply IH. tauto.
Qed.

Lemma lookup_below (d : W) (l : list Pair) (k : K) :
  Forall (Z.lt k) (map fst l) -> lookup d l k = d.
Proof.
  intros F. apply lookup_absent. intros Hin.
  rewrite Forall_forall in F. specialize (F _ Hin). lia.
Qed.

Lemma merge_visits_nil_l (l2 : list Pair) :
  merge_visits M d1 d2 [] l2 = map (fun p => (fst p, M (fst p) d1 (snd p))) l2.
Proof.
  induction l2 as [|[k2 v2] r2 IH]; [reflexivity|].
  simpl in *. now rewrite IH.
Qed.

Lemma merge_visits_nil_r (l1 : list Pair) :
  merge_visits M d1 d2 l1 [] = map (fun p => (fst p, M (fst p) (snd p) d2)) l1.
Proof.
  induction l1 as [|[k1 v1] r1 IH]; [reflexivity|].
  simpl in *. now rewrite IH.
Qed.

Lemma merge_visits_cons (k1 : K) (v1 : W) (r1 : list Pair)
    (k2 : K) (v2 : W) (r2 : list Pair) :
  merge_visits M d1 d2 ((k1, v1) :: r1) ((k2, v2) :: r2) =
  if k1 =? k2 then (k1, M k1 v1 v2) :: merge_visits M d1 d2 r1 r2
  else if k1 <? k2 then
    (k1, M k1 v1 d2) :: merge_visits M d1 d2 r1 ((k2, v2) :: r2)
  else (k2, M k2 d1 v2) :: merge_visits M d1 d2 ((k1, v1) :: r1) r2.
Proof. reflexivity. Qed.

(** On a sequence of strictly increasing keys, every pair is read back
    by [lookup]. *)
Lemma map_lookup_self (d : W) (f : K -> W -> W) (l : list Pair) :
  StronglySorted Z.lt (map fst l) ->
  map (fun p => (fst p, f (fst p) (snd p))) l =
  map (fun k => (k, f k (lookup d l k))) (map fst l).
Proof.
  induction l as [|[k v] r IH]; simpl; intros S; [reflexivity|].
  apply StronglySorted_inv in S as [S F].
  rewrite Z.eqb_refl. f_equal.
  rewrite IH by assumption.
  apply map_ext_in. intros k' Hk'.
  rewrite Forall_forall in F. specialize (F _ Hk').
  destruct (Z.eqb_spec k k'); [lia|reflexivity].
Qed.

(** The pairs the traversal visits: one for every key of either
    sequence, in increasing key order, each side read by [lookup]. *)
Lemma merge_visits_spec (l1 l2 : list Pair) :
  StronglySorted Z.lt (map fst l1) -> StronglySorted Z.lt (map fst l2) ->
  merge_visits M d1 d2 l1 l2 =
  map (fun k => (k, M k (lookup d1 l1 k) (lookup d2 l2 k)))
    (union_keys (map fst l1) (map fst l2)).
Proof.
  revert l2. induction l1 as [|[k1 v1] r1 IH1]; intros l2 S1 S2.
  - rewrite merge_visits_nil_l. simpl map at 3. rewrite union_keys_nil_l.
    now apply (map_lookup_self d2 (fun k v => M k d1 v)).
  - induction l2 as [|[k2 v2] r2 IH2].
    + rewrite merge_visits_nil_r. simpl map at 4. rewrite union_keys_nil_r.
      now apply (map_lookup_self d1 (fun k v => M k v d2)).
    + rewrite merge_visits_cons.
      change (union_keys (map fst ((k1, v1) :: r1)) (map fst ((k2, v2) :: r2)))
        with (if k1 =? k2 then k1 :: union_keys (map fst r1) (map fst r2)
              else if k1 <? k2
                   then k1 :: union_keys (map fst r1) (map fst ((k2, v2) :: r2))
                   else k2 :: union_keys (map fst ((k1, v1) :: r1)) (map fst r2)).
      pose proof S1 as S1'. pose proof S2 as S2'.
      simpl in S1, S2.
      apply StronglySorted_inv in S1 as [S1 F1].
      apply StronglySorted_inv in S2 as [S2 F2].
      pose proof F1 as F1'. pose proof F2 as F2'.
      rewrite Forall_forall in F1, F2.
      destruct (Z.eqb_spec k1 k2) as [<-|Hne].
      * simpl. rewrite !Z.eqb_refl. f_equal.
        rewrite IH1 by assumption.
        apply map_ext_in. intros k Hk.
        apply union_keys_In in Hk.
        assert (k1 < k) by (destruct Hk as [Hk|Hk]; auto).
        destruct (Z.eqb_spec k1 k); [lia|reflexivity].
      * destruct (Z.ltb_spec k1 k2) as [Hlt|Hge].
        -- cbn [map]. f_equal.
           ++ cbn [lookup]. rewrite Z.eqb_refl.
              destruct (Z.eqb_spec k2 k1); [lia|].
              rewrite lookup_below; [reflexivity|].
              apply Forall_forall. intros k Hk. specialize (F2 _ Hk). lia.
           ++ rewrite IH1 by assumption.
              apply map_ext_in. intros k Hk.
              apply union_keys_In in Hk.
              assert (k1 < k).
              { simpl in Hk. destruct Hk as [Hk|[<-|Hk]]; auto.
                specialize (F2 _ Hk). lia. }
              cbn [lookup].
              destruct (Z.eqb_spec k1 k); [lia|reflexivity].
        -- cbn [map]. f_equal.
           ++ cbn [lookup]. rewrite Z.eqb_refl.
              destruct (Z.eqb_spec k1 k2); [lia|].
              rewrite lookup_below; [reflexivity|].
              apply Forall_forall. intros k Hk. specialize (F1 _ Hk). lia.
           ++ etransitivity; [exact (IH2 S2)|].
              apply map_ext_in. intros k Hk.
              apply union_keys_In in Hk.
              assert (k2 < k).
              { simpl in Hk. destruct Hk as [[<-|Hk]|Hk]; auto; [lia|].
                specialize (F1 _ Hk). lia. }
              cbn [lookup].
              destruct (Z.eqb_spec k2 k); [lia|reflexivity].
Qed.

End Merge.

Section Map.

Context {float W : Type} `{WW : Weight float W}.

Variable M : K -> W -> W -> W.

(** Pushing a sequence of pairs keeps those whose value differs from
    the implicit value, in order. *)
Lemma fold_Push (vs : list Pair) (r : SparseTupleWeight W) :
  fold_left (fun r p => Push p r) vs r =
  {| default_ := default_ r; pairs := pairs r ++ sparse (default_ r) vs |}.
Proof.
  revert r. induction vs as [|p vs IH]; intros r; simpl.
  - rewrite app_nil_r. now destruct r.
  - rewrite IH. unfold Push, W_eqb.
    destruct (W_eq_dec (snd p) (default_ r)); simpl; [reflexivity|].
    now rewrite <- app_assoc.
Qed.

(** The merge of two ordered tuples into a fresh result. *)
Lemma SparseTupleWeightMap_spec (z : W) (w1 w2 : SparseTupleWeight W) :
  ordered w1 -> ordered w2 ->
  SparseTupleWeightMap (Init z) w1 w2 M =
  {| default_ := M 0 (default_ w1) (default_ w2);
     pairs := sparse (M 0 (default_ w1) (default_ w2)) (merged M w1 w2) |}.
Proof.
  intros O1 O2. unfold SparseTupleWeightMap. rewrite fold_Push. simpl.
  f_equal. unfold merged, get, keys.
  now rewrite merge_visits_spec.
Qed.

(** The merge against a tuple without pairs walks the other tuple. *)
Lemma SparseTupleWeightMap_scalar_l (z k : W) (w : SparseTupleWeight W) :
  SparseTupleWeightMap (Init z) (of_weight k) w M =
  {| default_ := M 0 k (default_ w);
     pairs := sparse (M 0 k (default_ w))
                (map (fun p => (fst p, M (fst p) k (snd p))) (pairs w)) |}.
Proof.
  unfold SparseTupleWeightMap.
  change (pairs (of_weight k)) with (@nil (@Pair W)).
  now rewrite merge_visits_nil_l, fold_Push.
Qed.

Lemma SparseTupleWeightMap_scalar_r (z k : W) (w : SparseTupleWeight W) :
  SparseTupleWeightMap (Init z) w (of_weight k) M =
  {| default_ := M 0 (default_ w) k;
     pairs := sparse (M 0 (default_ w) k)
                (map (fun p => (fst p, M (fst p) (snd p) k)) (pairs w)) |}.
Proof.
  unfold SparseTupleWeightMap.
  change (pairs (of_weight k)) with (@nil (@Pair W)).
  now rewrite merge_visits_nil_r, fold_Push.
Qed.

End Map.

Section ZeroDefault.

Context {float W : Type} `{WW : Weight float W}.


Lemma W_eqb_eq (a b : W) : W_eqb a b = true <-> a = b.
Proof. unfold W_eqb. destruct (W_eq_dec a b); split; congruence. Qed.

Lemma W_eqb_refl (a : W) : W_eqb a a = true.
Proof. now apply W_eqb_eq. Qed.

End ZeroDefault.

End MergeFacts.

Module PowerFacts.

Import Weight.
Import SparseTupleWeight.
Import SparsePowerWeight.
Import Stated.
Import MergeFacts.

Section Power.

Context {float W : Type} `{WW : Weight float W}.

(** Accumulating the values of the pairs that survive [sparse] is
    accumulating over the keys and passing over the value [d]. *)
Lemma fold_sparse_map (d : W) (f : K -> W) (ks : list K) (a : W) :
  fold_left (fun result p => Weight.Plus result (snd p))
    (sparse d (map (fun k => (k, f k)) ks)) a =
  fold_left
    (fun result k => if W_eqb (f k) d then result else Weight.Plus result (f k))
    ks a.
Proof.
  revert a. induction ks as [|k ks IH]; intros a; simpl; [reflexivity|].
  destruct (W_eqb (f k) d); simpl; apply IH.
Qed.

Lemma fold_left_ext_in {A B : Type} (f g : A -> B -> A) (l : list B) (a : A) :
  (forall x y, In y l -> f x y = g x y) ->
  fold_left f l a = fold_left g l a.
Proof.
  revert a. induction l as [|y l IH]; intros a H; simpl; [reflexivity|].
  rewrite H by now left. apply IH. intros x y' Hy. apply H. now right.
Qed.

(** The two mappers of the merge of [Plus], [Times] and [Divide], on
    ordered operands. *)
Lemma Plus_unfold (t1 t2 : SparsePowerWeight W) :
  ordered t1 -> ordered t2 ->
  Plus t1 t2 =
  {| default_ := Weight.Plus (default_ t1) (default_ t2);
     pairs := sparse (Weight.Plus (default_ t1) (default_ t2))
                (merged SparseTupleWeightPlusMapper t1 t2) |}.
Proof. intros O1 O2. unfold Plus, empty. now rewrite SparseTupleWeightMap_spec. Qed.

Lemma Times_unfold (t1 t2 : SparsePowerWeight W) :
  ordered t1 -> ordered t2 ->
  Times t1 t2 =
  {| default_ := Weight.Times (default_ t1) (default_ t2);
     pairs := sparse (Weight.Times (default_ t1) (default_ t2))
                (merged SparseTupleWeightTimesMapper t1 t2) |}.
Proof. intros O1 O2. unfold Times, empty. now rewrite SparseTupleWeightMap_spec. Qed.





(** The value the loop of [DotProduct] leaves in [result], on ordered
    operands. *)
Lemma DotProduct_body_result (p1 p2 : SparsePowerWeight W) :
  ordered p1 -> ordered p2 ->
  result (DotProduct_body p1 p2) = DotProduct_sum p1 p2.
Proof.
  intros O1 O2. unfold DotProduct_body. cbn [result].
  rewrite (Times_unfold p1 p2 O1 O2). cbn [pairs].
  unfold merged, SparseTupleWeightTimesMapper.
  now rewrite fold_sparse_map.
Qed.


Lemma read_last (stack : list (DotProduct_frame W)) (f : DotProduct_frame W) :
  read (stack ++ [f]) (List.length stack) = Some (result f).
Proof.
  unfold read. rewrite nth_error_app2 by apply Nat.le_refl.
  now rewrite Nat.sub_diag.
Qed.

Lemma read_beyond (stack : list (DotProduct_frame W)) :
  read stack (List.length stack) = None.
Proof.
  unfold read.
  now rewrite (proj2 (nth_error_None stack (List.length stack)) (Nat.le_refl _)).
Qed.

(** C2.  For operands as the specification has them, with increasing
    keys and absent keys reading as [Zero], over a weight with
    Times(Zero, Zero) = Zero and Plus(a, Zero) = a: the loop of
    [DotProduct] leaves in the local [result] the accumulation the
    specification states, and while the call is in progress the
    reference that is returned designates it; the return takes the frame
    of the call off the stack, and after it the reference designates no
    object. *)
Theorem DotProduct_returns_dead_local (stack : list (DotProduct_frame W))
    (p1 p2 : SparsePowerWeight W) :
  ordered p1 -> ordered p2 ->
  default_ p1 = Weight.Zero -> default_ p2 = Weight.Zero ->
  Weight.Times Weight.Zero Weight.Zero = Weight.Zero ->
  (forall a, Weight.Plus a Weight.Zero = a) ->
  result (DotProduct_body p1 p2) = DotProduct_stated p1 p2
  /\ read (stack ++ [DotProduct_body p1 p2]) (fst (DotProduct stack p1 p2))
     = Some (DotProduct_stated p1 p2)
  /\ snd (DotProduct stack p1 p2) = stack
  /\ read (snd (DotProduct stack p1 p2)) (fst (DotProduct stack p1 p2))
     = None.
Proof.
  intros O1 O2 E1 E2 EZ PZ.
  assert (R : result (DotProduct_body p1 p2) = DotProduct_stated p1 p2).
  { rewrite (DotProduct_body_result p1 p2 O1 O2).
    unfold DotProduct_sum, DotProduct_stated, get, get_or_zero.
    rewrite E1, E2, EZ.
    apply fold_left_ext_in. intros x k _.
    destruct (W_eqb _ _) eqn:Ev; [|reflexivity].
    apply W_eqb_eq in Ev. now rewrite Ev, PZ. }
  unfold DotProduct. cbn [fst snd]. rewrite removelast_last.
  split; [exact R|]. split; [now rewrite read_last, R|].
  split; [reflexivity|apply read_beyond].
Qed.



(** The tolerance handed to [ApproxEqual] has no effect on its result:
    the comparison is the one the specification states for [kDelta]. *)
Lemma ApproxEqual_is_stated_at_kDelta (w1 w2 : SparsePowerWeight W)
    (delta : float) :
  ApproxEqual w1 w2 delta = ApproxEqual_stated w1 w2 kDelta.
Proof. reflexivity. Qed.

Lemma ApproxEqual_any_delta (w1 w2 : SparsePowerWeight W)
    (delta delta' : float) :
  ApproxEqual w1 w2 delta = ApproxEqual w1 w2 delta'.
Proof. reflexivity. Qed.

End Power.

End PowerFacts.

(* ================================================================= *)
(** ** The operations at concrete inputs *)

Module Evaluation.

Import Weight.
Import Tropical.
Import SparseTupleWeight.
Import SparsePowerWeight.
Import Stated.
Import Inputs.
Import MoreInputs.
Import PowerFacts.

#[local] Existing Instance TW.


Lemma ordered_t12 : ordered t12.
Proof. repeat constructor. Defined.

Lemma ordered_t23 : ordered t23.
Proof. repeat constructor. Defined.

Lemma ordered_One : ordered (One : PW).
Proof. constructor. Defined.

(** With a tolerance below 1, the values 0 and 1 are not approximately
    equal. *)
Lemma ApproxEqual_0_1 (kd : Q) :
  (kd < 1)%Q -> Tropical.ApproxEqual (Fin 0) (Fin 1) kd = false.
Proof.
  intros H. unfold Tropical.ApproxEqual.
  apply andb_false_iff. right.
  destruct (Qle_bool (inject_Z 1) (inject_Z 0 + kd)) eqn:E; [|reflexivity].
  apply Qle_bool_iff in E. exfalso.
  change (inject_Z 1) with 1%Q in E. change (inject_Z 0) with 0%Q in E. lra.
Qed.

(** C1.  [ApproxEqual] at the tuples holding 0 and 1 at key 1, and at
    the tuples holding 0 and 1 at every dimension, with the tolerance 2,
    for any [kDelta] below 1: the coordinates are within the tolerance
    and the merge under the caller's tolerance equals [One()], but
    [ApproxEqual] answers false. *)
Theorem ApproxEqual_drops_delta (kd : Q) :
  (kd < 1)%Q ->
  Tropical.ApproxEqual (Fin 0) (Fin 1) 2%Q = true
  /\ @ApproxEqual_stated Q T (weight kd) zero_at_1 one_at_1 2%Q = true
  /\ @ApproxEqual Q T (weight kd) zero_at_1 one_at_1 2%Q = false
  /\ @ApproxEqual_stated Q T (weight kd)
       (of_tuple (of_weight (Fin 0))) (of_tuple (of_weight (Fin 1))) 2%Q = true
  /\ @ApproxEqual Q T (weight kd)
       (of_tuple (of_weight (Fin 0))) (of_tuple (of_weight (Fin 1))) 2%Q = false.
Proof.
  intros H. pose proof (ApproxEqual_0_1 kd H) as E.
  split; [reflexivity|]. split; [reflexivity|].
  split.
  - unfold ApproxEqual, SparseTupleWeightMap, SparseTupleWeightApproxMapper.
    cbn [pairs default_ zero_at_1 one_at_1 merge_visits Z.eqb Pos.eqb
         fold_left kDelta weight Weight.ApproxEqual].
    rewrite E. reflexivity.
  - split; [reflexivity|].
    unfold ApproxEqual, SparseTupleWeightMap, SparseTupleWeightApproxMapper.
    cbn [pairs default_ of_tuple of_weight Init merge_visits
         fold_left kDelta weight Weight.ApproxEqual].
    rewrite E. reflexivity.
Qed.

Lemma ApproxEqual_drops_delta_witness :
  (1 # 1024 < 1)%Q
  /\ ApproxEqual_stated zero_at_1 one_at_1 2%Q = true
  /\ ApproxEqual zero_at_1 one_at_1 2%Q = false.
Proof.
  assert (H : (1 # 1024 < 1)%Q) by reflexivity.
  split; [exact H|].
  destruct (ApproxEqual_drops_delta (1 # 1024) H) as (_ & A & B & _).
  split; [exact A | exact B].
Defined.



(** Why the operands are taken ordered: on a tuple whose keys are not
    increasing the traversal comes to a key twice. *)
Lemma Plus_unordered_visits_twice :
  map fst
    (merge_visits SparseTupleWeightPlusMapper Inf Inf
       [(2, Fin 5); (1, Fin 3)] [(1, Fin 7)])
  = [1; 2; 1].
Proof. reflexivity. Qed.

Lemma Plus_Zero_r (a : T) : Tropical.Plus a Inf = a.
Proof. now destruct a. Defined.

Lemma DotProduct_returns_dead_local_witness :
  ordered t12 /\ ordered t23
  /\ result (DotProduct_body t12 t23) = Fin 8
  /\ DotProduct_stated t12 t23 = Fin 8
  /\ DotProduct [] t12 t23 = (0%nat, [])
  /\ read (snd (DotProduct [] t12 t23)) (fst (DotProduct [] t12 t23)) = None.
Proof.
  split; [exact ordered_t12|]. split; [exact ordered_t23|].
  destruct (@DotProduct_returns_dead_local Q T TW [] t12 t23 ordered_t12 ordered_t23
              eq_refl eq_refl eq_refl Plus_Zero_r) as (_ & _ & _ & D).
  split; [reflexivity|]. split; [reflexivity|].
  split; [reflexivity | exact D].
Defined.

Lemma Tropical_Times_Zero_r (z : Z) : Tropical.Times (Fin z) Inf = Inf.
Proof. reflexivity. Defined.



End Evaluation.

(* ================================================================= *)
(** ** Type name and properties *)

Module TypeFacts.

Import Weight.
Import SparsePowerWeight.

Local Open Scope string_scope.

Lemma append_nil_r (s : string) : s ++ "" = s.
Proof. induction s as [|c s IH]; simpl; [reflexivity|now rewrite IH]. Qed.

Lemma append_inj_l (s a b : string) : s ++ a = s ++ b -> a = b.
Proof.
  induction s as [|c s IH]; simpl; intros H; [exact H|].
  injection H as H. now apply IH.
Qed.

Lemma append_empty (s t : string) : s ++ t = "" -> s = "" /\ t = "".
Proof. destruct s; simpl; [now split|discriminate]. Qed.

(** The decimal representation determines the integer. *)
Lemma Int64ToStr_inj (a b : Z) : Int64ToStr a = Int64ToStr b -> a = b.
Proof.
  unfold Int64ToStr. intros H.
  assert (N : forall z, Z.to_int z <> Decimal.Pos Decimal.Nil
                        /\ Z.to_int z <> Decimal.Neg Decimal.Nil).
  { intros [|p|p]; simpl; split; try discriminate;
      intros [= E]; now apply DecimalPos.Unsigned.to_uint_nonnil in E. }
  apply (f_equal NilZero.int_of_string) in H.
  rewrite !NilZero.isi in H by apply N.
  injection H as H. now apply DecimalZ.to_int_inj.
Qed.

(** The width of [K] in bits, as [Type()] computes it. *)
Lemma width_in_range (sizeof_K : Z) :
  (0 < sizeof_K < 2 ^ 60)%Z ->
  to_int64 (size_t (8 * sizeof_K)) = (8 * sizeof_K)%Z.
Proof.
  intros H. unfold to_int64, size_t.
  rewrite Z.mod_mod by lia.
  rewrite Z.mod_small by lia.
  destruct (Z.ltb_spec (8 * sizeof_K) (2 ^ 63)); lia.
Qed.

Section Names.

Context {float W : Type} `{WW : Weight float W}.

Lemma Type_is_fresh (sizeof_K : Z) : Type_ sizeof_K = Type_fresh sizeof_K.
Proof. reflexivity. Qed.

Lemma Type_fresh_nonempty (sizeof_K : Z) : Type_fresh sizeof_K <> "".
Proof.
  unfold Type_fresh. destruct (negb (sizeof_K =? 4)%Z); intros H.
  - apply append_empty in H as [H _]. apply append_empty in H as [_ H].
    discriminate.
  - apply append_empty in H as [_ H]. discriminate.
Qed.

(** C8.  For key types of sizes [k1] and [k2] (in bytes, positive and
    below 2^60), the type name is the type name of [W] followed by "_^n"
    and, when the key is not 4 bytes wide, by "_" and the decimal width
    of the key in bits; every later call of [Type()] returns that same
    name; and key types of different sizes have different names. *)
Theorem Type_distinguishes_widths (k1 k2 : Z) :
  (0 < k1 < 2 ^ 60)%Z -> (0 < k2 < 2 ^ 60)%Z -> k1 <> k2 ->
  Type_ k1 =
    (Weight.Type_ ++ "_^n")
    ++ (if (k1 =? 4)%Z then "" else "_" ++ Int64ToStr (8 * k1))
  /\ Type_call k1 (Type_ k1) = (Type_ k1, Type_ k1)
  /\ Type_ k1 <> Type_ k2.
Proof.
  intros R1 R2 Hne.
  assert (F : forall k, (0 < k < 2 ^ 60)%Z ->
            Type_ k = (Weight.Type_ ++ "_^n")
                      ++ (if (k =? 4)%Z then "" else "_" ++ Int64ToStr (8 * k))).
  { intros k R. rewrite Type_is_fresh. unfold Type_fresh.
    rewrite (width_in_range k R).
    destruct (k =? 4)%Z; simpl; [now rewrite append_nil_r|reflexivity]. }
  split; [now apply F|]. split.
  - unfold Type_call.
    destruct (String.eqb_spec (Type_ k1) "") as [E|_]; [|reflexivity].
    exfalso. now apply (Type_fresh_nonempty k1).
  - rewrite (F k1 R1), (F k2 R2). intros H. apply append_inj_l in H.
    destruct (Z.eqb_spec k1 4) as [E1|N1], (Z.eqb_spec k2 4) as [E2|N2].
    + lia.
    + discriminate.
    + discriminate.
    + apply (append_inj_l "_") in H. apply Int64ToStr_inj in H. lia.
Qed.

Section Flags.

Variables kLeftSemiring kRightSemiring kCommutative kIdempotent : Z.

Lemma land_kept (p kept f : Z) :
  Z.land kept f = f -> Z.land (Z.land p kept) f = Z.land p f.
Proof. intros H. now rewrite <- Z.land_assoc, H. Qed.

Lemma kept_flags :
  let kept :=
    Stated.four_flags kLeftSemiring kRightSemiring kCommutative kIdempotent in
  Z.land kept kLeftSemiring = kLeftSemiring
  /\ Z.land kept kRightSemiring = kRightSemiring
  /\ Z.land kept kCommutative = kCommutative
  /\ Z.land kept kIdempotent = kIdempotent.
Proof.
  unfold Stated.four_flags. repeat split; apply Z.bits_inj'; intros i _;
    rewrite Z.land_spec, !Z.lor_spec;
    destruct (Z.testbit kLeftSemiring i), (Z.testbit kRightSemiring i),
      (Z.testbit kCommutative i), (Z.testbit kIdempotent i); reflexivity.
Qed.

(** C6.  Whatever the values of the four flags, [Properties()] has
    exactly the bits of [W::Properties()] that belong to one of them:
    each of the four flags is set in it as it is in [W::Properties()]
    (so the power weight is commutative, idempotent, a left or a right
    semiring iff [W] is), and no bit outside the four flags is set. *)
Theorem Properties_keeps_four_flags :
  let P := Properties kLeftSemiring kRightSemiring kCommutative kIdempotent in
  (forall i : Z,
     Z.testbit P i =
     Z.testbit Weight.Properties i
     && (Z.testbit kLeftSemiring i || Z.testbit kRightSemiring i
         || Z.testbit kCommutative i || Z.testbit kIdempotent i))
  /\ Z.land P kLeftSemiring = Z.land Weight.Properties kLeftSemiring
  /\ Z.land P kRightSemiring = Z.land Weight.Properties kRightSemiring
  /\ Z.land P kCommutative = Z.land Weight.Properties kCommutative
  /\ Z.land P kIdempotent = Z.land Weight.Properties kIdempotent
  /\ (forall other : Z,
        Z.land P
          (Z.ldiff other
             (Stated.four_flags kLeftSemiring kRightSemiring kCommutative
                kIdempotent)) = 0%Z).
Proof.
  cbv zeta. destruct kept_flags as (L & R & C & I).
  unfold Stated.four_flags in L, R, C, I.
  split.
  { intros i. unfold Properties. now rewrite Z.land_spec, !Z.lor_spec. }
  unfold Properties.
  split; [now apply land_kept|]. split; [now apply land_kept|].
  split; [now apply land_kept|]. split; [now apply land_kept|].
  intros other. apply Z.bits_inj'. intros i Hi.
  unfold Properties.
  change (Z.lor (Z.lor (Z.lor kLeftSemiring kRightSemiring) kCommutative)
            kIdempotent)
    with (Stated.four_flags kLeftSemiring kRightSemiring kCommutative
            kIdempotent).
  rewrite !Z.land_spec, Z.ldiff_spec, Z.bits_0.
  destruct (Z.testbit (Stated.four_flags _ _ _ _) i); simpl;
    now rewrite ?andb_false_r.
Qed.

End Flags.

End Names.

End TypeFacts.

(* ================================================================= *)
(** ** Reweighting with the potential One *)

Module ReweightFacts.

Import Weight.
Import Reweight.

Section Identity.

Context {float W : Type} `{WW : Weight float W}.

(** What the weight class is asked to guarantee of [One]. *)
Hypothesis Times_One_l : forall w : W, Weight.Times Weight.One w = w.
Hypothesis Times_One_r : forall w : W, Weight.Times w Weight.One = w.
Hypothesis Divide_One :
  forall (w : W) (t : DivideType), Weight.Divide w Weight.One t = w.
Hypothesis One_not_Zero : (Weight.One : W) <> Weight.Zero.

Lemma is_zero_One : is_zero (Weight.One : W) = false.
Proof. unfold is_zero. now destruct (W_eq_dec Weight.One Weight.Zero). Qed.

Lemma reweight_arc_weight_One (two_sided : bool) (type : ReweightType)
    (w : W) :
  reweight_arc_weight two_sided type Weight.One Weight.One w = w.
Proof.
  unfold reweight_arc_weight. rewrite is_zero_One. simpl.
  destruct type, two_sided;
    now rewrite ?Divide_One, ?Times_One_r, ?Times_One_l.
Qed.

Lemma reweight_arcs_One (two_sided : bool) (type : ReweightType)
    (potential : list W) (n s : nat) (ars : list (Arc W)) :
  (forall i, (i < n)%nat -> potential_at potential i = Weight.One) ->
  (s < n)%nat ->
  Forall (fun a => (nextstate a < n)%nat) ars ->
  map (reweight_arc two_sided type potential s) ars = ars.
Proof.
  intros P L. induction 1 as [|a ars Ca _ IH]; simpl; [reflexivity|].
  rewrite IH. f_equal.
  destruct a as [i o w nx]. unfold reweight_arc. simpl in *.
  rewrite (P s), (P nx) by assumption.
  now rewrite reweight_arc_weight_One.
Qed.

Lemma reweight_states_One (two_sided : bool) (type : ReweightType)
    (potential : list W) (n : nat) (sts : list (State W)) (s : nat) :
  (forall i, (i < n)%nat -> potential_at potential i = Weight.One) ->
  (s + List.length sts <= n)%nat ->
  Forall (fun st => Forall (fun a => (nextstate a < n)%nat) (arcs st)) sts ->
  reweight_states two_sided type potential s sts = sts.
Proof.
  intros P. revert s. induction sts as [|st rest IH]; intros s L C; simpl.
  - reflexivity.
  - simpl in L. inversion C as [|? ? Cst Crest]; subst.
    rewrite IH by (assumption || lia). f_equal.
    destruct st as [f ars]. unfold reweight_state. simpl in *.
    rewrite (P s) by lia. unfold reweight_final. rewrite Times_One_r.
    f_equal. apply (reweight_arcs_One _ _ _ n); (assumption || lia).
Qed.

(** C5.  Over a weight class in which [One] is a two-sided identity
    of [Times], dividing by [One] changes nothing and [One] is not
    [Zero]: for an automaton whose arcs lead to its own states and a
    potential vector that gives [One] to every state, [Reweight] returns
    the automaton itself, in either direction; every arc weight and
    every final weight is equal to what it was. *)
Theorem Reweight_all_One (two_sided : bool) (fst : Fst W)
    (potential : list W) (type : ReweightType) :
  closed fst -> all_One fst potential ->
  Reweight two_sided fst potential type = fst.
Proof.
  intros C A. unfold Reweight. destruct fst as [st sts]. simpl in *.
  f_equal. apply (reweight_states_One _ _ _ (List.length sts)); auto.
Qed.

End Identity.

End ReweightFacts.

(* ================================================================= *)
(** ** The exit status and the events of fstreweight *)

Module MainFacts.

Import Reweight.
Import FstReweight.

Section Main.

Variable MutableFstClass : Type.
Variable WeightClass : Type.
Variable Read : string -> bool -> option MutableFstClass.
Variable WeightType : MutableFstClass -> string.
Variable ReadPotentials : string -> string -> option (list WeightClass).
Variable s_Reweight :
  MutableFstClass -> list WeightClass -> ReweightType -> MutableFstClass.

(** C7.  Whatever the collaborators do: when loading fails, [main]
    returns 1 and its run has neither a Reweight nor a Write; and a run
    that has a Reweight or a Write is a run in which both loads
    succeeded, the Reweight coming after them and the Write last. *)
Theorem main_stops_on_load_failure
    (Write : MutableFstClass -> string -> bool)
    (FLAGS_to_final : bool) (argv : list string) :
  let r := main MutableFstClass WeightClass Read WeightType ReadPotentials
             s_Reweight Write FLAGS_to_final argv in
  (load_fails MutableFstClass WeightClass Read WeightType ReadPotentials argv ->
   fst r = 1
   /\ existsb is_reweight (snd r) = false
   /\ existsb is_write (snd r) = false)
  /\ (existsb is_reweight (snd r) = true \/ existsb is_write (snd r) = true ->
      exists f potential out_name,
        Read (arg argv 1) true = Some f
        /\ ReadPotentials (WeightType f) (arg argv 2) = Some potential
        /\ snd r =
           [EvRead (arg argv 1);
            EvReadPotentials (WeightType f) (arg argv 2);
            EvReweight f potential (GetReweightType FLAGS_to_final);
            EvWrite (s_Reweight f potential (GetReweightType FLAGS_to_final))
              out_name
              (Write (s_Reweight f potential (GetReweightType FLAGS_to_final))
                 out_name)]).
Proof.
  cbv zeta. unfold main, load_fails.
  destruct ((Z.of_nat (List.length argv) <? 3)
            || (Z.of_nat (List.length argv) >? 4)) eqn:Eargc.
  - simpl. split; [auto|]. intros [H|H]; discriminate.
  - destruct (Read (arg argv 1) true) as [f|] eqn:ER.
    + destruct (ReadPotentials (WeightType f) (arg argv 2)) as [p|] eqn:EP.
      * simpl. split.
        -- intros [H|(f' & H1 & H2)]; [discriminate|].
           injection H1 as <-. congruence.
        -- intros _. eexists f, p, _. repeat split; eauto.
      * simpl. split; [auto|]. intros [H|H]; discriminate.
    + simpl. split; [auto|]. intros [H|H]; discriminate.
Qed.

(** C10.  The exit status of [main] is the same whatever [Write]
    returns; with three or four arguments and both loads succeeding it
    is 0, and the run ends with the Write. *)
Theorem main_ignores_Write
    (Write Write' : MutableFstClass -> string -> bool)
    (FLAGS_to_final : bool) (argv : list string) :
  fst (main MutableFstClass WeightClass Read WeightType ReadPotentials
         s_Reweight Write FLAGS_to_final argv)
  = fst (main MutableFstClass WeightClass Read WeightType ReadPotentials
           s_Reweight Write' FLAGS_to_final argv)
  /\ (3 <= Z.of_nat (List.length argv) <= 4 ->
      loads_succeed MutableFstClass WeightClass Read WeightType
        ReadPotentials argv ->
      fst (main MutableFstClass WeightClass Read WeightType ReadPotentials
             s_Reweight Write FLAGS_to_final argv) = 0
      /\ exists f out_name,
           last (snd (main MutableFstClass WeightClass Read WeightType
                        ReadPotentials s_Reweight Write FLAGS_to_final argv))
             EvShowUsage
           = EvWrite f out_name (Write f out_name)).
Proof.
  unfold main, loads_succeed.
  destruct ((Z.of_nat (List.length argv) <? 3)
            || (Z.of_nat (List.length argv) >? 4)) eqn:Eargc.
  - split; [reflexivity|]. intros R. exfalso.
    apply orb_true_iff in Eargc as [E|E].
    + apply Z.ltb_lt in E. lia.
    + apply Z.gtb_lt in E. lia.
  - destruct (Read (arg argv 1) true) as [f|] eqn:ER.
    + destruct (ReadPotentials (WeightType f) (arg argv 2)) as [p|] eqn:EP.
      * simpl. split; [reflexivity|]. intros _ _. split; [reflexivity|].
        eexists _, _. reflexivity.
      * split; [reflexivity|]. intros _ (f' & p' & H1 & H2).
        injection H1 as <-. congruence.
    + split; [reflexivity|]. intros _ (f' & p' & H1 & H2). discriminate.
Qed.

End Main.

End MainFacts.

(* ================================================================= *)
(** ** The type name, the transform and the command at concrete inputs *)

Module Runs.

Import Weight.
Import Tropical.
Import Reweight.
Import FstReweight.
Import Inputs.

#[local] Existing Instance TW.

Lemma Type_distinguishes_widths_witness :
  (0 < 4 < 2 ^ 60) /\ (0 < 8 < 2 ^ 60) /\ 4 <> 8
  /\ SparsePowerWeight.Type_ 4 = "tropical_^n"%string
  /\ SparsePowerWeight.Type_ 8 = "tropical_^n_64"%string
  /\ SparsePowerWeight.Type_ 4 <> SparsePowerWeight.Type_ 8.
Proof.
  assert (R4 : 0 < 4 < 2 ^ 60) by (split; reflexivity).
  assert (R8 : 0 < 8 < 2 ^ 60) by (split; reflexivity).
  assert (N : 4 <> 8) by discriminate.
  split; [exact R4|]. split; [exact R8|]. split; [exact N|].
  destruct (TypeFacts.Type_distinguishes_widths 4 8 R4 R8 N) as (_ & _ & D).
  split; [reflexivity|]. split; [reflexivity | exact D].
Defined.

Lemma Tropical_Times_One_l (w : T) : Tropical.Times (Fin 0) w = w.
Proof. destruct w; reflexivity. Defined.

Lemma Tropical_Times_One_r (w : T) : Tropical.Times w (Fin 0) = w.
Proof. destruct w; simpl; [now rewrite Z.add_0_r | reflexivity..]. Defined.

Lemma Tropical_Divide_One (w : T) (t : DivideType) : Tropical.Divide w (Fin 0) t = w.
Proof. destruct w; simpl; [now rewrite Z.sub_0_r | reflexivity..]. Defined.

Lemma Tropical_One_not_Zero : Fin 0 <> Inf.
Proof. discriminate. Defined.

Lemma closed_two_states : closed two_states.
Proof. repeat constructor. Defined.

Lemma all_One_two_states : all_One two_states potential_One.
Proof.
  intros [|[|s]] H; [reflexivity | reflexivity |].
  exfalso. simpl in H. lia.
Defined.

Lemma Reweight_all_One_witness :
  closed two_states /\ all_One two_states potential_One
  /\ Reweight true two_states potential_One REWEIGHT_TO_FINAL = two_states
  /\ Reweight false two_states potential_One REWEIGHT_TO_INITIAL = two_states.
Proof.
  split; [exact closed_two_states|]. split; [exact all_One_two_states|].
  split;
    apply (@ReweightFacts.Reweight_all_One Q T TW Tropical_Times_One_l
             Tropical_Times_One_r Tropical_Divide_One Tropical_One_not_Zero);
    (exact closed_two_states || exact all_One_two_states).
Defined.

Lemma main_stops_on_load_failure_witness :
  fst (main nat nat Read_in WeightType_tropical ReadPotentials_txt
         Reweight_next Write_succeeds true argv_no_fst) = 1
  /\ fst (main nat nat Read_in WeightType_tropical ReadPotentials_txt
            Reweight_next Write_succeeds true argv_no_potentials) = 1
  /\ exists f potential out_name,
       Read_in (arg argv_good 1) true = Some f
       /\ ReadPotentials_txt (WeightType_tropical f) (arg argv_good 2)
          = Some potential
       /\ snd (main nat nat Read_in WeightType_tropical ReadPotentials_txt
                 Reweight_next Write_succeeds true argv_good)
          = [EvRead (arg argv_good 1);
             EvReadPotentials (WeightType_tropical f) (arg argv_good 2);
             EvReweight f potential (GetReweightType true);
             EvWrite (Reweight_next f potential (GetReweightType true))
               out_name
               (Write_succeeds
                  (Reweight_next f potential (GetReweightType true))
                  out_name)].
Proof.
  split.
  { apply (MainFacts.main_stops_on_load_failure nat nat Read_in
             WeightType_tropical ReadPotentials_txt Reweight_next
             Write_succeeds true argv_no_fst).
    left. reflexivity. }
  split.
  { apply (MainFacts.main_stops_on_load_failure nat nat Read_in
             WeightType_tropical ReadPotentials_txt Reweight_next
             Write_succeeds true argv_no_potentials).
    right. exists 0%nat. split; reflexivity. }
  apply (MainFacts.main_stops_on_load_failure nat nat Read_in
           WeightType_tropical ReadPotentials_txt Reweight_next
           Write_succeeds true argv_good).
  right. reflexivity.
Defined.

Lemma main_ignores_Write_witness :
  3 <= Z.of_nat (List.length argv_good) <= 4
  /\ fst (main nat nat Read_in WeightType_tropical ReadPotentials_txt
            Reweight_next Write_fails false argv_good) = 0
  /\ snd (main nat nat Read_in WeightType_tropical ReadPotentials_txt
            Reweight_next Write_fails false argv_good)
     = [EvRead "in.fst"; EvReadPotentials "tropical" "potential.txt";
        EvReweight 0%nat [7%nat] REWEIGHT_TO_INITIAL;
        EvWrite 1%nat "out.fst" false]%string.
Proof.
  assert (R : 3 <= Z.of_nat (List.length argv_good) <= 4)
    by (split; discriminate).
  split; [exact R|]. split; [|reflexivity].
  apply (MainFacts.main_ignores_Write nat nat Read_in WeightType_tropical
           ReadPotentials_txt Reweight_next Write_fails Write_succeeds
           false argv_good); [exact R|].
  exists 0%nat, [7%nat]. split; reflexivity.
Defined.

End Runs.

(* ================================================================= *)
(** ** What a merged tuple holds, and the form it keeps *)

Module SemanticsFacts.

Import Weight.
Import SparseTupleWeight.
Import SparsePowerWeight.
Import Stated.
Import Generate.
Import MergeFacts.
Import PowerFacts.

(** Two strictly increasing sequences with the same members are the same
    sequence. *)
Lemma sorted_same_members (l l' : list K) :
  StronglySorted Z.lt l -> StronglySorted Z.lt l' ->
  (forall x, In x l <-> In x l') -> l = l'.
Proof.
  revert l'. induction l as [|a l IH]; intros l' S S' E.
  - destruct l' as [|b l']; [reflexivity|].
    exfalso. apply (proj2 (E b)). now left.
  - destruct l' as [|b l'].
    + exfalso. apply (proj1 (E a)). now left.
    + apply StronglySorted_inv in S as [S F].
      apply StronglySorted_inv in S' as [S' F'].
      rewrite Forall_forall in F, F'.
      assert (a = b).
      { destruct (proj1 (E a) (or_introl eq_refl)) as [->|Ha]; [reflexivity|].
        destruct (proj2 (E b) (or_introl eq_refl)) as [->|Hb]; [reflexivity|].
        specialize (F _ Hb). specialize (F' _ Ha). lia. }
      subst b. f_equal. apply IH; try assumption.
      intros x. split; intros Hx.
      * destruct (proj1 (E x) (or_intror Hx)) as [<-|H]; [|exact H].
        specialize (F _ Hx). lia.
      * destruct (proj2 (E x) (or_intror Hx)) as [<-|H]; [|exact H].
        specialize (F' _ Hx). lia.
Qed.

Lemma union_keys_comm (l1 l2 : list K) :
  StronglySorted Z.lt l1 -> StronglySorted Z.lt l2 ->
  union_keys l1 l2 = union_keys l2 l1.
Proof.
  intros S1 S2. apply sorted_same_members.
  - now apply union_keys_sorted.
  - now apply union_keys_sorted.
  - intros x. rewrite !union_keys_In. tauto.
Qed.

Lemma sorted_filter (f : K -> bool) (l : list K) :
  StronglySorted Z.lt l -> StronglySorted Z.lt (filter f l).
Proof.
  induction 1 as [|a l S IH F]; simpl; [constructor|].
  destruct (f a); [|exact IH].
  constructor; [exact IH|].
  rewrite Forall_forall in *. intros x Hx.
  apply filter_In in Hx as [Hx _]. now apply F.
Qed.

Section Semantics.

Context {float W : Type} `{WW : Weight float W}.

Lemma keys_sparse_map (d : W) (f : K -> W) (ks : list K) :
  map fst (sparse d (map (fun k => (k, f k)) ks))
  = filter (fun k => negb (W_eqb (f k) d)) ks.
Proof.
  induction ks as [|k ks IH]; simpl; [reflexivity|].
  destruct (W_eqb (f k) d); simpl; now rewrite IH.
Qed.

(** Reading a key in the pairs kept by [sparse]: a pair left out had
    the implicit value, which is what the key then reads as. *)
Lemma lookup_sparse_map (d : W) (f : K -> W) (ks : list K) (k : K) :
  lookup d (sparse d (map (fun k => (k, f k)) ks)) k
  = if existsb (Z.eqb k) ks then f k else d.
Proof.
  induction ks as [|k' ks IH]; simpl; [reflexivity|].
  rewrite (Z.eqb_sym k k').
  destruct (W_eqb (f k') d) eqn:E; simpl.
  - rewrite IH. destruct (Z.eqb_spec k' k) as [->|N]; simpl; [|reflexivity].
    apply W_eqb_eq in E. rewrite E. now destruct (existsb (Z.eqb k) ks).
  - destruct (Z.eqb_spec k' k) as [->|N]; simpl; [reflexivity|apply IH].
Qed.

Lemma existsb_eqb_In (k : K) (ks : list K) :
  existsb (Z.eqb k) ks = true <-> In k ks.
Proof.
  rewrite existsb_exists. split.
  - intros (x & Hx & E). apply Z.eqb_eq in E. now subst.
  - intros H. exists k. split; [exact H|apply Z.eqb_refl].
Qed.

(** What the merge of two ordered tuples holds at a key, for a mapper
    that does not look at the key. *)
Lemma get_SparseTupleWeightMap (f : W -> W -> W) (z : W)
    (w1 w2 : SparseTupleWeight W) (k : K) :
  ordered w1 -> ordered w2 ->
  get (SparseTupleWeightMap (Init z) w1 w2 (fun _ v1 v2 => f v1 v2)) k
  = f (get w1 k) (get w2 k).
Proof.
  intros O1 O2. rewrite SparseTupleWeightMap_spec by assumption.
  unfold get at 1, merged. cbn [default_ pairs].
  rewrite (lookup_sparse_map _ (fun k => f (get w1 k) (get w2 k))).
  destruct (existsb (Z.eqb k) (union_keys (keys w1) (keys w2))) eqn:E;
    [reflexivity|].
  assert (N : ~ In k (union_keys (keys w1) (keys w2))).
  { intros H. apply existsb_eqb_In in H. congruence. }
  rewrite union_keys_In in N. unfold get, keys in *.
  rewrite !lookup_absent by tauto. reflexivity.
Qed.

(** The form of the merge of two ordered tuples. *)
Lemma SparseTupleWeightMap_form (M : K -> W -> W -> W) (z : W)
    (w1 w2 : SparseTupleWeight W) :
  ordered w1 -> ordered w2 ->
  let r := SparseTupleWeightMap (Init z) w1 w2 M in
  ordered r /\ sparse_form r
  /\ (forall k, In k (keys r) -> In k (keys w1) \/ In k (keys w2)).
Proof.
  intros O1 O2. cbv zeta. rewrite SparseTupleWeightMap_spec by assumption.
  unfold ordered, sparse_form, keys, merged. cbn [default_ pairs].
  rewrite (keys_sparse_map _ (fun k => M k (get w1 k) (get w2 k))).
  split; [|split].
  - apply sorted_filter. now apply union_keys_sorted.
  - apply Forall_forall. intros p Hp. unfold sparse in Hp.
    apply filter_In in Hp as [_ Hp]. intros E.
    apply W_eqb_eq in E. rewrite E in Hp. discriminate.
  - intros k Hk. apply filter_In in Hk as [Hk _].
    now apply union_keys_In in Hk.
Qed.

(** X1.  On ordered tuples, [Plus], [Times] and [Divide] act
    coordinate by coordinate: at every key, present or not, the result
    holds the sum, the product or the quotient of what the two operands
    hold there. *)
Theorem operations_are_pointwise (w1 w2 : SparsePowerWeight W)
    (type : DivideType) (k : K) :
  ordered w1 -> ordered w2 ->
  get (Plus w1 w2) k = Weight.Plus (get w1 k) (get w2 k)
  /\ get (Times w1 w2) k = Weight.Times (get w1 k) (get w2 k)
  /\ get (Divide w1 w2 type) k = Weight.Divide (get w1 k) (get w2 k) type.
Proof.
  intros O1 O2. unfold Plus, Times, Divide, empty.
  split; [|split].
  - now apply (get_SparseTupleWeightMap Weight.Plus).
  - now apply (get_SparseTupleWeightMap Weight.Times).
  - now apply (get_SparseTupleWeightMap
                 (fun v1 v2 => Weight.Divide v1 v2 type)).
Qed.

(** X2.  [Plus], [Times] and [Divide] keep the representation: the
    result of ordered operands is ordered, none of its pairs has the
    value the result holds implicitly, and every key of the result is a
    key of one of the operands. *)
Theorem operations_keep_form (w1 w2 : SparsePowerWeight W)
    (type : DivideType) :
  ordered w1 -> ordered w2 ->
  (ordered (Plus w1 w2) /\ sparse_form (Plus w1 w2)
   /\ forall k, In k (keys (Plus w1 w2)) -> In k (keys w1) \/ In k (keys w2))
  /\ (ordered (Times w1 w2) /\ sparse_form (Times w1 w2)
      /\ forall k, In k (keys (Times w1 w2)) ->
                   In k (keys w1) \/ In k (keys w2))
  /\ (ordered (Divide w1 w2 type) /\ sparse_form (Divide w1 w2 type)
      /\ forall k, In k (keys (Divide w1 w2 type)) ->
                   In k (keys w1) \/ In k (keys w2)).
Proof.
  intros O1 O2. unfold Plus, Times, Divide, empty.
  split; [|split]; now apply SparseTupleWeightMap_form.
Qed.

End Semantics.

End SemanticsFacts.

(* ================================================================= *)
(** ** Laws the tuple operations take over from the base weight *)

Module LawFacts.

Import Weight.
Import SparseTupleWeight.
Import SparsePowerWeight.
Import Stated.
Import Generate.
Import MergeFacts.
Import PowerFacts.
Import SemanticsFacts.

Section Laws.

Context {float W : Type} `{WW : Weight float W}.

Lemma sparse_id (d : W) (l : list Pair) :
  Forall (fun p => snd p <> d) l -> sparse d l = l.
Proof.
  induction 1 as [|p l Hp _ IH]; simpl; [reflexivity|].
  unfold W_eqb. destruct (W_eq_dec (snd p) d); [contradiction|].
  simpl. now rewrite IH.
Qed.

Lemma sparse_all (d : W) (l : list Pair) :
  Forall (fun p => snd p = d) l -> sparse d l = [].
Proof.
  induction 1 as [|p l Hp _ IH]; simpl; [reflexivity|].
  rewrite Hp, W_eqb_refl. exact IH.
Qed.

Lemma map_pair_id (f : W -> W) (l : list Pair) :
  (forall v, In v (map snd l) -> f v = v) ->
  map (fun p => (fst p, f (snd p))) l = l.
Proof.
  induction l as [|[k v] l IH]; simpl; intros H; [reflexivity|].
  rewrite H by now left. rewrite IH; [reflexivity|].
  intros v' Hv'. apply H. now right.
Qed.

Lemma tuple_eta (t : SparseTupleWeight W) :
  {| default_ := default_ t; pairs := pairs t |} = t.
Proof. now destruct t. Qed.

(** X3.  [Zero()] is the identity of [Plus] on a tuple in sparse form,
    when [W::Zero()] is the identity of the [Plus] of [W] on the weights
    the tuple is made of. *)
Theorem Plus_Zero_identity (w : SparsePowerWeight W) :
  (forall v : W, In v (values w) -> Weight.Plus Weight.Zero v = v) ->
  (forall v : W, In v (values w) -> Weight.Plus v Weight.Zero = v) ->
  sparse_form w ->
  Plus Zero w = w /\ Plus w Zero = w.
Proof.
  intros L R F. unfold Plus, Zero, SparseTupleWeight.Zero, of_tuple, empty.
  rewrite SparseTupleWeightMap_scalar_l, SparseTupleWeightMap_scalar_r.
  unfold SparseTupleWeightPlusMapper, values in *.
  rewrite L, R by now left.
  rewrite (map_pair_id (fun v => Weight.Plus Weight.Zero v))
    by (intros v Hv; apply L; now right).
  rewrite (map_pair_id (fun v => Weight.Plus v Weight.Zero))
    by (intros v Hv; apply R; now right).
  rewrite sparse_id by exact F. now rewrite tuple_eta.
Qed.

(** X4.  [One()] is the identity of [Times] on a tuple in sparse form,
    and so is the scalar [W::One()] on either side, when [W::One()] is
    the identity of the [Times] of [W] on the weights the tuple is made
    of. *)
Theorem Times_One_identity (w : SparsePowerWeight W) :
  (forall v : W, In v (values w) -> Weight.Times Weight.One v = v) ->
  (forall v : W, In v (values w) -> Weight.Times v Weight.One = v) ->
  sparse_form w ->
  Times One w = w /\ Times w One = w
  /\ Times_scalar_left Weight.One w = w
  /\ Times_scalar_right w Weight.One = w.
Proof.
  intros L R F.
  assert (E : Times One w = w /\ Times w One = w).
  { unfold Times, One, SparseTupleWeight.One, of_tuple, empty.
    rewrite SparseTupleWeightMap_scalar_l, SparseTupleWeightMap_scalar_r.
    unfold SparseTupleWeightTimesMapper, values in *.
    rewrite L, R by now left.
    rewrite (map_pair_id (fun v => Weight.Times Weight.One v))
      by (intros v Hv; apply L; now right).
    rewrite (map_pair_id (fun v => Weight.Times v Weight.One))
      by (intros v Hv; apply R; now right).
    rewrite sparse_id by exact F. now rewrite tuple_eta. }
  destruct E as [E1 E2]. repeat split; assumption.
Qed.

(** X5.  [Zero()] annihilates: when [W::Zero()] annihilates the
    weights a tuple is made of, the product of [Zero()] and the tuple,
    on either side, is [Zero()], and so is its scalar product by
    [W::Zero()]. *)
Theorem Times_Zero_annihilates (w : SparsePowerWeight W) :
  (forall v : W, In v (values w) ->
                 Weight.Times Weight.Zero v = Weight.Zero) ->
  (forall v : W, In v (values w) ->
                 Weight.Times v Weight.Zero = Weight.Zero) ->
  Times Zero w = Zero /\ Times w Zero = Zero
  /\ Times_scalar_left Weight.Zero w = Zero
  /\ Times_scalar_right w Weight.Zero = Zero.
Proof.
  intros L R.
  assert (E : Times Zero w = Zero /\ Times w Zero = Zero).
  { unfold Times, Zero, SparseTupleWeight.Zero, of_tuple, empty.
    rewrite SparseTupleWeightMap_scalar_l, SparseTupleWeightMap_scalar_r.
    unfold SparseTupleWeightTimesMapper, values in *.
    rewrite L, R by now left.
    rewrite !sparse_all; [split; reflexivity| |].
    - apply Forall_forall. intros p Hp.
      apply in_map_iff in Hp as (q & <- & Hq). apply R.
      right. now apply in_map.
    - apply Forall_forall. intros p Hp.
      apply in_map_iff in Hp as (q & <- & Hq). apply L.
      right. now apply in_map. }
  destruct E as [E1 E2].
  split; [exact E1|]. split; [exact E2|].
  split; [exact E1 | exact E2].
Qed.

(** X6.  [Plus] of ordered tuples is commutative when the [Plus] of
    [W] is. *)
Theorem Plus_commutative (w1 w2 : SparsePowerWeight W) :
  (forall a b : W, Weight.Plus a b = Weight.Plus b a) ->
  ordered w1 -> ordered w2 ->
  Plus w1 w2 = Plus w2 w1.
Proof.
  intros C O1 O2. rewrite !Plus_unfold by assumption.
  unfold merged, SparseTupleWeightPlusMapper.
  rewrite (union_keys_comm (keys w1) (keys w2)) by assumption.
  rewrite (C (default_ w1) (default_ w2)). f_equal. f_equal.
  apply map_ext. intros k. now rewrite C.
Qed.

(** X7.  [Times] of ordered tuples is commutative when the [Times] of
    [W] is. *)
Theorem Times_commutative (w1 w2 : SparsePowerWeight W) :
  (forall a b : W, Weight.Times a b = Weight.Times b a) ->
  ordered w1 -> ordered w2 ->
  Times w1 w2 = Times w2 w1.
Proof.
  intros C O1 O2.
  rewrite !Times_unfold by assumption.
  unfold merged, SparseTupleWeightTimesMapper.
  rewrite (union_keys_comm (keys w1) (keys w2)) by assumption.
  rewrite (C (default_ w1) (default_ w2)). f_equal. f_equal.
  apply map_ext. intros k. now rewrite C.
Qed.

End Laws.

End LawFacts.

(* ================================================================= *)
(** ** Approximate equality as the code computes it *)

Module ApproxFacts.

Import Weight.
Import SparseTupleWeight.
Import SparsePowerWeight.
Import Stated.
Import MergeFacts.
Import PowerFacts.
Import SemanticsFacts.

Section Approx.

Context {float W : Type} `{WW : Weight float W}.

Lemma pairs_eqb_nil_r (d1 d2 : W) (l : list Pair) :
  pairs_eqb d1 d2 l [] = forallb (fun p => W_eqb (snd p) d2) l.
Proof.
  induction l as [|[k v] l IH]; [reflexivity|].
  simpl in *. now rewrite IH.
Qed.

(** A tuple is equal to [One()] when it holds [One] implicitly and all
    its pairs have the value [One]. *)
Lemma eqb_One (r : SparseTupleWeight W) :
  SparseTupleWeight.eqb r One
  = W_eqb (default_ r) Weight.One
    && forallb (fun p => W_eqb (snd p) Weight.One) (pairs r).
Proof.
  unfold SparseTupleWeight.eqb, One, SparseTupleWeight.One, of_tuple,
    of_weight, Init.
  cbn [default_ pairs]. now rewrite pairs_eqb_nil_r.
Qed.

Lemma forallb_sparse (d : W) (l : list Pair) :
  forallb (fun p => W_eqb (snd p) d) (sparse d l) = true
  <-> forall p, In p l -> snd p = d.
Proof.
  induction l as [|p l IH]; simpl.
  - split; [intros _ q []|reflexivity].
  - destruct (W_eqb (snd p) d) eqn:E; simpl.
    + rewrite IH. apply W_eqb_eq in E. split.
      * intros H q [<-|Hq]; auto.
      * intros H q Hq. apply H. now right.
    + rewrite E. simpl. split; [discriminate|].
      intros H. specialize (H p (or_introl eq_refl)).
      apply W_eqb_eq in H. congruence.
Qed.

Lemma merge_visits_self (M : K -> W -> W -> W) (d1 d2 : W)
    (l : list Pair) :
  merge_visits M d1 d2 l l
  = map (fun p => (fst p, M (fst p) (snd p) (snd p))) l.
Proof.
  induction l as [|[k v] l IH]; [reflexivity|].
  rewrite merge_visits_cons, Z.eqb_refl. simpl. now rewrite IH.
Qed.

(** X8.  A tuple is approximately equal to itself, whatever the order
    of its keys and whatever [delta], as soon as each of the weights it
    is made of is approximately equal to itself within [kDelta]. *)
Theorem ApproxEqual_reflexive (w : SparsePowerWeight W) (delta : float) :
  (forall v : W, In v (Generate.values w) ->
                 Weight.ApproxEqual v v kDelta = true) ->
  ApproxEqual w w delta = true.
Proof.
  intros R. unfold ApproxEqual. rewrite eqb_One.
  unfold SparseTupleWeightMap. rewrite merge_visits_self, fold_Push.
  unfold SparseTupleWeightApproxMapper. cbn [default_ pairs SetDefaultValue Init].
  unfold Generate.values in R.
  rewrite R, W_eqb_refl by now left. simpl.
  apply forallb_sparse. intros p Hp.
  apply in_map_iff in Hp as (q & <- & Hq). simpl.
  rewrite R; [reflexivity|]. right. now apply in_map.
Qed.

(** The merge under an approximate-equality mapper, compared with
    [One()]. *)
Lemma approx_merge_is_One (w1 w2 : SparsePowerWeight W) (d : float) :
  (Weight.One : W) <> Weight.Zero ->
  ordered w1 -> ordered w2 ->
  (SparseTupleWeight.eqb
     (SparseTupleWeightMap (Init Weight.Zero) w1 w2
        (SparseTupleWeightApproxMapper d)) One = true <->
   Weight.ApproxEqual (default_ w1) (default_ w2) d = true
   /\ forall k, In k (keys w1) \/ In k (keys w2) ->
        Weight.ApproxEqual (get w1 k) (get w2 k) d = true).
Proof.
  intros N O1 O2. rewrite eqb_One.
  rewrite SparseTupleWeightMap_spec by assumption. cbn [default_ pairs].
  unfold SparseTupleWeightApproxMapper at 1 2.
  rewrite andb_true_iff, W_eqb_eq.
  destruct (Weight.ApproxEqual (default_ w1) (default_ w2) d) eqn:E0.
  - rewrite forallb_sparse. unfold merged. split.
    + intros [_ H]. split; [reflexivity|]. intros k Hk.
      apply union_keys_In in Hk.
      specialize (H _ (in_map (fun k => (k, _)) _ _ Hk)). simpl in H.
      unfold SparseTupleWeightApproxMapper in H.
      destruct (Weight.ApproxEqual (get w1 k) (get w2 k) d);
        [reflexivity|congruence].
    + intros [_ H]. split; [reflexivity|]. intros p Hp.
      apply in_map_iff in Hp as (k & <- & Hk). simpl.
      apply union_keys_In in Hk.
      unfold SparseTupleWeightApproxMapper. now rewrite (H k Hk).
  - split; [intros [H _]; congruence | intros [H _]; discriminate].
Qed.

(** X9.  What [ApproxEqual] decides on ordered tuples, when [One] is
    not [Zero] in [W]: it answers true exactly when the two implicit
    values are approximately equal within [kDelta] and, at every key of
    either tuple, what the two tuples hold is approximately equal within
    [kDelta].  The argument [delta] plays no part. *)
Theorem ApproxEqual_decides (w1 w2 : SparsePowerWeight W) (delta : float) :
  (Weight.One : W) <> Weight.Zero ->
  ordered w1 -> ordered w2 ->
  (ApproxEqual w1 w2 delta = true <->
   Weight.ApproxEqual (default_ w1) (default_ w2) kDelta = true
   /\ forall k, In k (keys w1) \/ In k (keys w2) ->
        Weight.ApproxEqual (get w1 k) (get w2 k) kDelta = true).
Proof.
  intros N O1 O2. unfold ApproxEqual. cbv zeta.
  now apply approx_merge_is_One.
Qed.

(** X10.  On ordered tuples [ApproxEqual] is symmetric when the
    [ApproxEqual] of [W] is, [One] not being [Zero]. *)
Theorem ApproxEqual_symmetric (w1 w2 : SparsePowerWeight W)
    (delta : float) :
  (Weight.One : W) <> Weight.Zero ->
  (forall a b : W,
     Weight.ApproxEqual a b kDelta = Weight.ApproxEqual b a kDelta) ->
  ordered w1 -> ordered w2 ->
  ApproxEqual w1 w2 delta = ApproxEqual w2 w1 delta.
Proof.
  intros N S O1 O2. apply eq_true_iff_eq. unfold ApproxEqual. cbv zeta.
  rewrite (approx_merge_is_One w1 w2 kDelta N O1 O2).
  rewrite (approx_merge_is_One w2 w1 kDelta N O2 O1).
  rewrite (S (default_ w2) (default_ w1)).
  split; intros [H0 H]; (split; [exact H0|]); intros k Hk;
    [rewrite <- S | rewrite S]; apply H; tauto.
Qed.

End Approx.

End ApproxFacts.

(* ================================================================= *)
(** ** The generated weight, the type name and the command line *)

Module CoverFacts.

Import Weight.
Import SparseTupleWeight.
Import SparsePowerWeight.
Import Stated.
Import Generate.
Import MergeFacts.
Import SemanticsFacts.

Section Generated.

Context {float W : Type} `{WW : Weight float W}.

Lemma fold_left_over_map {A B C : Type} (f : A -> B -> A) (g : C -> B)
    (l : list C) (a : A) :
  fold_left f (map g l) a = fold_left (fun a c => f a (g c)) l a.
Proof.
  revert a. induction l as [|c l IH]; intros a; simpl; [reflexivity|].
  apply IH.
Qed.

Lemma to_signed_small (bits n : Z) :
  0 < bits -> 0 <= n < 2 ^ (bits - 1) -> to_signed bits n = n.
Proof.
  intros B R. unfold to_signed.
  assert (P : 2 ^ bits = 2 * 2 ^ (bits - 1)).
  { rewrite <- Z.pow_succ_r by lia. f_equal. lia. }
  rewrite Z.mod_small by lia.
  destruct (Z.ltb_spec n (2 ^ (bits - 1))); [reflexivity|lia].
Qed.

Lemma generate_loop_eq (sizeof_K : Z) (generate_ : nat -> W) (rank : Z)
    (turns : nat) (i : Z) (weight : SparsePowerWeight W) :
  generate_loop sizeof_K generate_ rank turns i weight =
  if i mod 2 ^ 64 <=? rank then
    match turns with
    | O => None
    | S turns' =>
        if i + 1 <? 2 ^ 31 then
          generate_loop sizeof_K generate_ rank turns' (i + 1)
            (Push (to_signed (8 * sizeof_K) i, generate_ (Z.to_nat i)) weight)
        else None
    end
  else Some weight.
Proof. destruct turns; reflexivity. Qed.

(** With the rank below 2^31 - 1 and within the range of the key type,
    the loop comes to its end: from turn [a] on it pushes the pairs of
    the turns left, in order. *)
Lemma generate_loop_runs (sizeof_K : Z) (generate_ : nat -> W) (rank : nat)
    (n a : nat) (weight : SparsePowerWeight W) :
  0 < sizeof_K ->
  Z.of_nat rank < 2 ^ 31 - 1 ->
  Z.of_nat rank < 2 ^ (8 * sizeof_K - 1) ->
  (1 <= a)%nat -> (a + n = S rank)%nat ->
  generate_loop sizeof_K generate_ (Z.of_nat rank) n (Z.of_nat a) weight =
  Some (fold_left (fun w i => Push (Z.of_nat i, generate_ i) w)
          (seq a n) weight).
Proof.
  intros HK R31 RK. revert a weight.
  assert (P31 : 2 ^ 31 < 2 ^ 64) by reflexivity.
  induction n as [|n IH]; intros a weight Ha Hn; rewrite generate_loop_eq.
  - rewrite Z.mod_small by lia.
    destruct (Z.leb_spec (Z.of_nat a) (Z.of_nat rank)); [lia|reflexivity].
  - rewrite Z.mod_small by lia.
    destruct (Z.leb_spec (Z.of_nat a) (Z.of_nat rank)); [|lia].
    destruct (Z.ltb_spec (Z.of_nat a + 1) (2 ^ 31)); [|lia].
    rewrite to_signed_small by lia. rewrite Nat2Z.id.
    replace (Z.of_nat a + 1) with (Z.of_nat (S a)) by lia.
    rewrite IH by lia. reflexivity.
Qed.

Lemma WeightGenerate_unfold (sizeof_K : Z) (generate_ : nat -> W)
    (rank : nat) :
  0 < sizeof_K ->
  Z.of_nat rank < 2 ^ 31 - 1 ->
  Z.of_nat rank < 2 ^ (8 * sizeof_K - 1) ->
  WeightGenerate sizeof_K generate_ rank =
  Some {| default_ := Weight.Zero;
          pairs := sparse Weight.Zero
                     (map (fun i => (Z.of_nat i, generate_ i))
                        (seq 1 rank)) |}.
Proof.
  intros HK R31 RK. unfold WeightGenerate, empty.
  change 1 with (Z.of_nat 1).
  rewrite generate_loop_runs by (assumption || lia).
  rewrite <- (fold_left_over_map (fun r p => Push p r)
                (fun i => (Z.of_nat i, generate_ i))).
  now rewrite fold_Push.
Qed.

Lemma sorted_of_nat_seq (a n : nat) :
  StronglySorted Z.lt (map Z.of_nat (seq a n)).
Proof.
  revert a. induction n as [|n IH]; intros a; simpl; constructor.
  - apply IH.
  - apply Forall_forall. intros x Hx.
    apply in_map_iff in Hx as (i & <- & Hi). apply in_seq in Hi. lia.
Qed.

Lemma keys_sparse (d : W) (g : nat -> W) (l : list nat) :
  map fst (sparse d (map (fun i => (Z.of_nat i, g i)) l))
  = map Z.of_nat (filter (fun i => negb (W_eqb (g i) d)) l).
Proof.
  induction l as [|i l IH]; simpl; [reflexivity|].
  destruct (W_eqb (g i) d); simpl; now rewrite IH.
Qed.

Lemma sorted_of_nat_filter (f : nat -> bool) (l : list nat) :
  StronglySorted Z.lt (map Z.of_nat l) ->
  StronglySorted Z.lt (map Z.of_nat (filter f l)).
Proof.
  induction l as [|a l IH]; simpl; intros S; [constructor|].
  apply StronglySorted_inv in S as [S F].
  destruct (f a); [|now apply IH].
  simpl. constructor; [now apply IH|].
  rewrite Forall_forall in *. intros x Hx.
  apply in_map_iff in Hx as (i & <- & Hi).
  apply filter_In in Hi as [Hi _]. apply F. now apply in_map.
Qed.

(** X11.  For a key type of [sizeof_K] bytes and a rank below
    2^31 - 1 that the key type can hold, [WeightGenerate] comes to its
    end and returns a weight that holds [Zero] implicitly, is ordered
    and in sparse form, and whose pairs are exactly the pairs
    (i, the i-th generated weight) for the turns i from 1 to the rank
    whose generated weight is not [Zero]; no key is the reserved key. *)
Theorem WeightGenerate_weight (sizeof_K : Z) (generate_ : nat -> W)
    (rank : nat) :
  0 < sizeof_K ->
  Z.of_nat rank < 2 ^ 31 - 1 ->
  Z.of_nat rank < 2 ^ (8 * sizeof_K - 1) ->
  exists w,
    WeightGenerate sizeof_K generate_ rank = Some w
    /\ default_ w = Weight.Zero
    /\ ordered w /\ sparse_form w
    /\ (forall k v, In (k, v) (pairs w) <->
          exists i, (1 <= i <= rank)%nat /\ k = Z.of_nat i
                    /\ v = generate_ i /\ v <> Weight.Zero)
    /\ ~ In kNoKey (keys w).
Proof.
  intros HK R31 RK.
  rewrite (WeightGenerate_unfold sizeof_K generate_ rank HK R31 RK).
  eexists. split; [reflexivity|].
  assert (M : forall k v,
             In (k, v) (sparse Weight.Zero
                          (map (fun i => (Z.of_nat i, generate_ i))
                             (seq 1 rank))) <->
             exists i, (1 <= i <= rank)%nat /\ k = Z.of_nat i
                       /\ v = generate_ i /\ v <> Weight.Zero).
  { intros k v. unfold sparse. rewrite filter_In, in_map_iff. simpl. split.
    - intros [(i & E & Hi) Hv]. injection E as <- <-.
      apply in_seq in Hi. exists i. repeat split; try lia.
      intros Ez. apply W_eqb_eq in Ez. rewrite Ez in Hv. discriminate.
    - intros (i & Hi & -> & -> & Hv). split.
      + exists i. split; [reflexivity|]. apply in_seq. lia.
      + destruct (W_eqb (generate_ i) Weight.Zero) eqn:E; [|reflexivity].
        apply W_eqb_eq in E. contradiction. }
  unfold ordered, sparse_form, keys. cbn [default_ pairs].
  split; [reflexivity|]. split; [|split; [|split]].
  - rewrite keys_sparse. apply sorted_of_nat_filter, sorted_of_nat_seq.
  - apply Forall_forall. intros [k v] Hp. apply M in Hp.
    destruct Hp as (i & _ & _ & _ & Hv). exact Hv.
  - exact M.
  - intros H. apply in_map_iff in H as ([k v] & E & Hp). simpl in E.
    apply M in Hp. destruct Hp as (i & _ & -> & _).
    unfold kNoKey in E. lia.
Qed.

End Generated.

Local Open Scope string_scope.

Lemma append_assoc (a b c : string) : (a ++ b) ++ c = a ++ (b ++ c).
Proof. induction a as [|x a IH]; simpl; [reflexivity|now rewrite IH]. Qed.

Lemma length_append (a b : string) :
  String.length (a ++ b) = (String.length a + String.length b)%nat.
Proof. induction a as [|x a IH]; simpl; [reflexivity|now rewrite IH]. Qed.

Lemma append_inj_r (a b t : string) : a ++ t = b ++ t -> a = b.
Proof.
  revert b. induction a as [|x a IH]; intros [|y b] H; simpl in *.
  - reflexivity.
  - exfalso. apply (f_equal String.length) in H. simpl in H.
    rewrite length_append in H. lia.
  - exfalso. apply (f_equal String.length) in H. simpl in H.
    rewrite length_append in H. lia.
  - injection H as -> H. f_equal. now apply IH.
Qed.

(** X12.  For a key type of a given size, the type name of the power
    weight tells the type name of the base weight: two base weights of
    different type names give power weights of different type names. *)
Theorem Type_tells_base
    {float1 W1 : Type} (WW1 : Weight float1 W1)
    {float2 W2 : Type} (WW2 : Weight float2 W2) (sizeof_K : Z) :
  @SparsePowerWeight.Type_ float1 W1 WW1 sizeof_K
  = @SparsePowerWeight.Type_ float2 W2 WW2 sizeof_K ->
  @Weight.Type_ float1 W1 WW1 = @Weight.Type_ float2 W2 WW2.
Proof.
  unfold SparsePowerWeight.Type_, Type_call. simpl. unfold Type_fresh.
  destruct (negb (sizeof_K =? 4)%Z); intros H.
  - rewrite <- !append_assoc in H. rewrite !append_assoc in H.
    now apply append_inj_r in H.
  - now apply append_inj_r in H.
Qed.

End CoverFacts.

(* ================================================================= *)
(** ** More on the command line of fstreweight *)

Module CommandFacts.

Import Reweight.
Import FstReweight.

Section Command.

Variable MutableFstClass : Type.
Variable WeightClass : Type.
Variable Read : string -> bool -> option MutableFstClass.
Variable WeightType : MutableFstClass -> string.
Variable ReadPotentials : string -> string -> option (list WeightClass).
Variable s_Reweight :
  MutableFstClass -> list WeightClass -> ReweightType -> MutableFstClass.
Variable Write : MutableFstClass -> string -> bool.

Lemma argc_check (argv : list string) :
  (Z.of_nat (List.length argv) <? 3) || (Z.of_nat (List.length argv) >? 4)
  = false
  <-> 3 <= Z.of_nat (List.length argv) <= 4.
Proof.
  rewrite orb_false_iff, Z.ltb_ge.
  destruct (Z.gtb_spec (Z.of_nat (List.length argv)) 4) as [G|G]; split.
  - intros [_ H]. discriminate.
  - lia.
  - lia.
  - intros [L _]. split; [exact L|reflexivity].
Qed.

(** X13.  With fewer than three or more than four arguments (the
    program name counted), [main] shows the usage and returns 1; it
    reads nothing, and neither reweights nor writes. *)
Theorem main_usage (FLAGS_to_final : bool) (argv : list string) :
  Z.of_nat (List.length argv) < 3 \/ 4 < Z.of_nat (List.length argv) ->
  main MutableFstClass WeightClass Read WeightType ReadPotentials
    s_Reweight Write FLAGS_to_final argv
  = (1, [EvShowUsage]).
Proof.
  intros H. unfold main.
  destruct ((Z.of_nat (List.length argv) <? 3)
            || (Z.of_nat (List.length argv) >? 4)) eqn:E; [reflexivity|].
  apply argc_check in E. lia.
Qed.

(** X14.  The exit status of [main] is 0 or 1, and it is 0 exactly
    when there are three or four arguments and both loads succeed. *)
Theorem main_status (FLAGS_to_final : bool) (argv : list string) :
  let r := main MutableFstClass WeightClass Read WeightType ReadPotentials
             s_Reweight Write FLAGS_to_final argv in
  (fst r = 0 \/ fst r = 1)
  /\ (fst r = 0 <->
      3 <= Z.of_nat (List.length argv) <= 4
      /\ loads_succeed MutableFstClass WeightClass Read WeightType
           ReadPotentials argv).
Proof.
  cbv zeta. unfold main, loads_succeed.
  destruct ((Z.of_nat (List.length argv) <? 3)
            || (Z.of_nat (List.length argv) >? 4)) eqn:E.
  - simpl. split; [now right|]. split; [discriminate|].
    intros [R _]. apply argc_check in R. congruence.
  - apply argc_check in E.
    destruct (Read (arg argv 1) true) as [f|] eqn:ER.
    + destruct (ReadPotentials (WeightType f) (arg argv 2)) as [p|] eqn:EP.
      * simpl. split; [now left|]. split; [|reflexivity].
        intros _. split; [exact E|]. now exists f, p.
      * simpl. split; [now right|]. split; [discriminate|].
        intros [_ (f' & p' & H1 & H2)]. injection H1 as <-. congruence.
    + simpl. split; [now right|]. split; [discriminate|].
      intros [_ (f' & p' & H1 & H2)]. discriminate.
Qed.

(** X15.  When both loads succeed, what is written is the automaton
    [Reweight] returned for the automaton and the potentials read, in
    the direction the flag selects; the output name is the fourth
    argument when there is one and the empty string with three
    arguments. *)
Theorem main_output (FLAGS_to_final : bool) (argv : list string)
    (f : MutableFstClass) (potential : list WeightClass) :
  3 <= Z.of_nat (List.length argv) <= 4 ->
  Read (arg argv 1) true = Some f ->
  ReadPotentials (WeightType f) (arg argv 2) = Some potential ->
  let out_name :=
    if Z.of_nat (List.length argv) =? 3 then ""%string else arg argv 3 in
  let fst' := s_Reweight f potential (GetReweightType FLAGS_to_final) in
  last (snd (main MutableFstClass WeightClass Read WeightType
               ReadPotentials s_Reweight Write FLAGS_to_final argv))
    EvShowUsage
  = EvWrite fst' out_name (Write fst' out_name).
Proof.
  intros R ER EP. cbv zeta. unfold main.
  rewrite (proj2 (argc_check argv) R), ER, EP. simpl.
  destruct (Z.gtb_spec (Z.of_nat (List.length argv)) 3),
    (Z.eqb_spec (Z.of_nat (List.length argv)) 3); try lia; reflexivity.
Qed.

End Command.

End CommandFacts.

(* ================================================================= *)
(** ** Scalars, read key by key *)

Module ReadFacts.

Import Weight.
Import SparseTupleWeight.
Import SparsePowerWeight.
Import Generate.
Import SemanticsFacts.

Section Read.

Context {float W : Type} `{WW : Weight float W}.

Lemma get_of_weight (v : W) (k : K) : get (of_tuple (of_weight v)) k = v.
Proof. reflexivity. Qed.

Lemma ordered_of_weight (v : W) : ordered (of_tuple (of_weight v)).
Proof. constructor. Qed.

(** X17.  The scalar products and the scalar quotient of an ordered
    tuple act at every key: what the result holds at a key is what the
    tuple holds there multiplied by the scalar on the given side, or
    divided by it. *)
Theorem scalars_are_pointwise (w : SparsePowerWeight W) (s : W)
    (type : DivideType) (k : K) :
  ordered w ->
  get (Times_scalar_left s w) k = Weight.Times s (get w k)
  /\ get (Times_scalar_right w s) k = Weight.Times (get w k) s
  /\ get (Divide_scalar w s type) k = Weight.Divide (get w k) s type.
Proof.
  intros O.
  unfold Times_scalar_left, Times_scalar_right, Divide_scalar, Times, Divide,
    empty.
  cbv zeta. split; [|split].
  - exact (get_SparseTupleWeightMap Weight.Times Weight.Zero
             (of_tuple (of_weight s)) w k (ordered_of_weight s) O).
  - exact (get_SparseTupleWeightMap Weight.Times Weight.Zero
             w (of_tuple (of_weight s)) k O (ordered_of_weight s)).
  - exact (get_SparseTupleWeightMap
             (fun v1 v2 => Weight.Divide v1 v2 type) Weight.Zero
             w (of_tuple (of_weight s)) k O (ordered_of_weight s)).
Qed.

End Read.

End ReadFacts.

(* ================================================================= *)
(** ** The further properties at concrete inputs *)

Module MoreRuns.

Import Weight.
Import Tropical.
Import Reweight.
Import FstReweight.
Import SparseTupleWeight.
Import SparsePowerWeight.
Import Generate.
Import Inputs.
Import MoreInputs.

#[local] Existing Instance TW.

Lemma Tropical_Plus_comm (a b : T) : Tropical.Plus a b = Tropical.Plus b a.
Proof. destruct a, b; simpl; try reflexivity. now rewrite Z.min_comm. Defined.

Lemma Tropical_Times_comm (a b : T) :
  Tropical.Times a b = Tropical.Times b a.
Proof. destruct a, b; simpl; try reflexivity. now rewrite Z.add_comm. Defined.

Lemma Tropical_ApproxEqual_sym (a b : T) (d : Q) :
  Tropical.ApproxEqual a b d = Tropical.ApproxEqual b a d.
Proof. destruct a, b; simpl; try reflexivity. apply andb_comm. Defined.

Lemma sparse_form_t12 : sparse_form t12.
Proof. repeat constructor; discriminate. Defined.

Lemma operations_are_pointwise_witness :
  ordered t12 /\ ordered t23
  /\ get (Plus t12 t23) 2 = Fin 3
  /\ get (Times t12 t23) 2 = Fin 8
  /\ get (Divide t12 t23 DIVIDE_ANY) 2 = Fin (-2).
Proof.
  split; [exact Evaluation.ordered_t12|].
  split; [exact Evaluation.ordered_t23|].
  exact (SemanticsFacts.operations_are_pointwise t12 t23 DIVIDE_ANY 2
           Evaluation.ordered_t12 Evaluation.ordered_t23).
Defined.

Lemma operations_keep_form_witness :
  ordered t12 /\ ordered t23
  /\ ordered (Plus t12 t23) /\ sparse_form (Times t12 t23).
Proof.
  split; [exact Evaluation.ordered_t12|].
  split; [exact Evaluation.ordered_t23|].
  destruct (SemanticsFacts.operations_keep_form t12 t23 DIVIDE_ANY
              Evaluation.ordered_t12 Evaluation.ordered_t23)
    as ((A & _) & (_ & B & _) & _).
  split; [exact A | exact B].
Defined.

Lemma Plus_Zero_identity_witness :
  sparse_form t12 /\ Plus Zero t12 = t12 /\ Plus t12 Zero = t12.
Proof.
  split; [exact sparse_form_t12|].
  apply (LawFacts.Plus_Zero_identity t12).
  - intros v _. now destruct v.
  - intros v _. now destruct v.
  - exact sparse_form_t12.
Defined.

Lemma Times_One_identity_witness :
  sparse_form t12 /\ Times One t12 = t12
  /\ Times_scalar_right t12 (Fin 0) = t12.
Proof.
  split; [exact sparse_form_t12|].
  destruct (LawFacts.Times_One_identity t12) as (A & _ & _ & B).
  - intros v _. apply Runs.Tropical_Times_One_l.
  - intros v _. apply Runs.Tropical_Times_One_r.
  - exact sparse_form_t12.
  - split; [exact A | exact B].
Defined.

Lemma Times_Zero_annihilates_witness :
  Times Zero t12 = Zero /\ Times_scalar_right t12 Inf = Zero.
Proof.
  destruct (LawFacts.Times_Zero_annihilates t12) as (A & _ & _ & B).
  - intros v [<-|[<-|[<-|[]]]]; reflexivity.
  - intros v [<-|[<-|[<-|[]]]]; reflexivity.
  - split; [exact A | exact B].
Defined.

Lemma Plus_commutative_witness :
  ordered t12 /\ ordered t23 /\ Plus t12 t23 = Plus t23 t12.
Proof.
  split; [exact Evaluation.ordered_t12|].
  split; [exact Evaluation.ordered_t23|].
  exact (@LawFacts.Plus_commutative Q T TW t12 t23 Tropical_Plus_comm
           Evaluation.ordered_t12 Evaluation.ordered_t23).
Defined.

Lemma Times_commutative_witness :
  ordered t12 /\ ordered t23
  /\ Times t12 t23 = Times t23 t12.
Proof.
  split; [exact Evaluation.ordered_t12|].
  split; [exact Evaluation.ordered_t23|].
  exact (@LawFacts.Times_commutative Q T TW t12 t23 Tropical_Times_comm
           Evaluation.ordered_t12 Evaluation.ordered_t23).
Defined.

Lemma ApproxEqual_reflexive_witness : ApproxEqual t12 t12 2%Q = true.
Proof.
  apply (ApproxFacts.ApproxEqual_reflexive t12 2%Q).
  intros v [<-|[<-|[<-|[]]]]; reflexivity.
Defined.

Lemma ordered_zero_at_1 : ordered zero_at_1.
Proof. repeat constructor. Defined.

Lemma ordered_one_at_1 : ordered one_at_1.
Proof. repeat constructor. Defined.

Lemma ApproxEqual_decides_witness :
  Fin 0 <> Inf /\ ordered zero_at_1 /\ ordered one_at_1
  /\ (ApproxEqual zero_at_1 one_at_1 2%Q = true <->
      Tropical.ApproxEqual Inf Inf (1 # 1024) = true
      /\ forall k, In k (keys zero_at_1) \/ In k (keys one_at_1) ->
           Tropical.ApproxEqual (get zero_at_1 k) (get one_at_1 k)
             (1 # 1024) = true).
Proof.
  split; [exact Runs.Tropical_One_not_Zero|].
  split; [exact ordered_zero_at_1|]. split; [exact ordered_one_at_1|].
  exact (@ApproxFacts.ApproxEqual_decides Q T TW zero_at_1 one_at_1 2%Q
           Runs.Tropical_One_not_Zero ordered_zero_at_1 ordered_one_at_1).
Defined.

Lemma ApproxEqual_symmetric_witness :
  ApproxEqual zero_at_1 one_at_1 2%Q = ApproxEqual one_at_1 zero_at_1 2%Q.
Proof.
  apply (@ApproxFacts.ApproxEqual_symmetric Q T TW zero_at_1 one_at_1 2%Q
           Runs.Tropical_One_not_Zero).
  - intros a b. apply Tropical_ApproxEqual_sym.
  - exact ordered_zero_at_1.
  - exact ordered_one_at_1.
Defined.

Lemma WeightGenerate_weight_witness :
  0 < 4 /\ Z.of_nat 3 < 2 ^ 31 - 1 /\ Z.of_nat 3 < 2 ^ (8 * 4 - 1)
  /\ WeightGenerate 4 generate_135 3
     = Some (mkTuple Inf [(1, Fin 1); (3, Fin 5)])
  /\ exists w, WeightGenerate 4 generate_135 3 = Some w
               /\ ordered w /\ ~ In kNoKey (keys w).
Proof.
  assert (HK : 0 < 4) by reflexivity.
  assert (R31 : Z.of_nat 3 < 2 ^ 31 - 1) by reflexivity.
  assert (RK : Z.of_nat 3 < 2 ^ (8 * 4 - 1)) by reflexivity.
  split; [exact HK|]. split; [exact R31|]. split; [exact RK|].
  split; [reflexivity|].
  destruct (CoverFacts.WeightGenerate_weight 4 generate_135 3 HK R31 RK)
    as (w & E & _ & O & _ & _ & N).
  exists w. split; [exact E|]. split; [exact O | exact N].
Defined.

Lemma Type_tells_base_witness :
  @SparsePowerWeight.Type_ Q T TW 8 = @SparsePowerWeight.Type_ Q T TW 8
  /\ @Weight.Type_ Q T TW = @Weight.Type_ Q T TW
  /\ @SparsePowerWeight.Type_ Q T TW 8
     <> @SparsePowerWeight.Type_ Q T log_like 8.
Proof.
  split; [reflexivity|]. split.
  - exact (CoverFacts.Type_tells_base TW TW 8 eq_refl).
  - intros H. apply (CoverFacts.Type_tells_base TW log_like 8) in H.
    discriminate H.
Defined.

Lemma main_usage_witness :
  Z.of_nat (List.length argv_short) < 3
  /\ main nat nat Read_in WeightType_tropical ReadPotentials_txt
       Reweight_next Write_succeeds true argv_short = (1, [EvShowUsage])
  /\ main nat nat Read_in WeightType_tropical ReadPotentials_txt
       Reweight_next Write_succeeds true argv_long = (1, [EvShowUsage]).
Proof.
  assert (S : Z.of_nat (List.length argv_short) < 3) by reflexivity.
  assert (L : 4 < Z.of_nat (List.length argv_long)) by reflexivity.
  split; [exact S|]. split.
  - exact (CommandFacts.main_usage nat nat Read_in WeightType_tropical
             ReadPotentials_txt Reweight_next Write_succeeds true argv_short
             (or_introl S)).
  - exact (CommandFacts.main_usage nat nat Read_in WeightType_tropical
             ReadPotentials_txt Reweight_next Write_succeeds true argv_long
             (or_intror L)).
Defined.

Lemma main_status_witness :
  fst (main nat nat Read_in WeightType_tropical ReadPotentials_txt
         Reweight_next Write_fails true argv_good) = 0
  /\ fst (main nat nat Read_in WeightType_tropical ReadPotentials_txt
            Reweight_next Write_fails true argv_no_fst) <> 0.
Proof.
  split.
  - apply (CommandFacts.main_status nat nat Read_in WeightType_tropical
             ReadPotentials_txt Reweight_next Write_fails true argv_good).
    split; [split; discriminate|].
    exists 0%nat, [7%nat]. split; reflexivity.
  - intros H.
    apply (CommandFacts.main_status nat nat Read_in WeightType_tropical
             ReadPotentials_txt Reweight_next Write_fails true argv_no_fst)
      in H.
    destruct H as (_ & f & p & H & _). discriminate H.
Defined.

Lemma main_output_witness :
  3 <= Z.of_nat (List.length argv_three) <= 4
  /\ last (snd (main nat nat Read_in WeightType_tropical ReadPotentials_txt
                  Reweight_next Write_succeeds true argv_three))
       EvShowUsage
     = EvWrite 1%nat ""%string true
  /\ last (snd (main nat nat Read_in WeightType_tropical ReadPotentials_txt
                  Reweight_next Write_succeeds true argv_good))
       EvShowUsage
     = EvWrite 1%nat "out.fst"%string true.
Proof.
  assert (R3 : 3 <= Z.of_nat (List.length argv_three) <= 4)
    by (split; discriminate).
  assert (R4 : 3 <= Z.of_nat (List.length argv_good) <= 4)
    by (split; discriminate).
  split; [exact R3|]. split.
  - exact (CommandFacts.main_output nat nat Read_in WeightType_tropical
             ReadPotentials_txt Reweight_next Write_succeeds true argv_three
             0%nat [7%nat] R3 eq_refl eq_refl).
  - exact (CommandFacts.main_output nat nat Read_in WeightType_tropical
             ReadPotentials_txt Reweight_next Write_succeeds true argv_good
             0%nat [7%nat] R4 eq_refl eq_refl).
Defined.

Lemma scalars_are_pointwise_witness :
  ordered one_but_1
  /\ get (Times_scalar_left (Fin 3) one_but_1) 1 = Inf
  /\ get (Times_scalar_right one_but_1 (Fin 3)) 2 = Fin 3
  /\ get (Divide_scalar one_but_1 (Fin 3) DIVIDE_ANY) 2 = Fin (-3).
Proof.
  assert (O : ordered one_but_1) by repeat constructor.
  split; [exact O|].
  destruct (ReadFacts.scalars_are_pointwise one_but_1 (Fin 3) DIVIDE_ANY 1 O)
    as (A & _ & _).
  destruct (ReadFacts.scalars_are_pointwise one_but_1 (Fin 3) DIVIDE_ANY 2 O)
    as (_ & B & C).
  split; [exact A|]. split; [exact B | exact C].
Defined.

End MoreRuns.
